(** * kubernetes-extension: namespace tracker, dispatcher guards, wait engine

    A shallow embedding of [pkg/extension] (namespace.go, the Helm handlers,
    extension.go) and the statements of its specification that are checked
    against it.

    Conventions.
    - Go strings are byte strings: Rocq [string] (a list of 8-bit [ascii]).
    - [map[string]any] is [gmap string any], [map[string]string] is
      [gmap string string].
    - A handler method of [Extension], which takes a context and a request
      and returns an operation result together with a Go error,
      becomes a state transformer over [World]: the extension's fields plus
      everything the handler can reach through them (the client behind the
      [ResourceClient] interface, the [helm] binary, the logger).  All
      handlers of this package return a [nil] Go error, so only the
      [OperationResult] is kept.
    - The mutex [e.mu] protects short critical sections; each of them is one
      atomic step of the small-step machines of section [Interleaving]. *)

From Stdlib Require Import ZArith Lia Ascii String List Permutation DecimalString.
From Stdlib Require Strings.Byte.
From stdpp Require Import base strings list gmap.

Local Open Scope string_scope.
Local Open Scope list_scope.
Local Open Scope nat_scope.
Local Open Scope stdpp_scope.

Set Warnings "-register-all".

(* ===================================================================== *)
(** ** Go values                                                          *)
(* ===================================================================== *)

(** The dynamic type [any] restricted to what JSON decoding produces. *)
Inductive any :=
| ANil
| ABool (b : bool)
| ANumber (z : Z)
| AString (s : string)
| ASlice (l : list any)
| AObject (m : gmap string any).

(** Go's [error] values as this package inspects them: [err.Error()] and
    [apierrors.IsNotFound(err)]. *)
Record GoError := mkError { err_Error : string; err_IsNotFound : bool }.

(** [errors.New(msg)] *)
Definition errors_New (msg : string) : GoError := mkError msg false.

(** [fmt.Errorf(prefix + "%w", err)]: the message is extended, the wrapped
    error stays reachable for [IsNotFound]. *)
Definition Errorf_w (prefix : string) (err : GoError) : GoError :=
  mkError (prefix +:+ err_Error err) (err_IsNotFound err).

(** [fmt.Sprintf("%d", n)] for a non-negative [int]. *)
Definition Sprintf_d (n : nat) : string := NilEmpty.string_of_uint (Nat.to_uint n).

(** [strings.Join] *)
Definition strings_Join (elems : list string) (sep : string) : string :=
  String.concat sep elems.

(** [strings.Contains] *)
Fixpoint strings_Contains (s substr : string) : bool :=
  String.prefix substr s ||
  match s with
  | EmptyString => false
  | String _ s' => strings_Contains s' substr
  end.

(** [v, _ := m[key].(string)]: the zero value when the key is absent or the
    value is not a string. *)
Definition get_string (m : gmap string any) (key : string) : string :=
  match m !! key with
  | Some (AString s) => s
  | _ => ""
  end.

(** [v, ok := m[key].(string)] *)
Definition get_string_ok (m : gmap string any) (key : string) : string * bool :=
  match m !! key with
  | Some (AString s) => (s, true)
  | _ => ("", false)
  end.

(** [v, _ := m[key].(bool)] *)
Definition get_bool (m : gmap string any) (key : string) : bool :=
  match m !! key with
  | Some (ABool b) => b
  | _ => false
  end.

(** [v, _ := m[key].(map[string]interface{})]; ranging over a nil map
    visits nothing, so the zero value is the empty map. *)
Definition get_map (m : gmap string any) (key : string) : gmap string any :=
  match m !! key with
  | Some (AObject o) => o
  | _ => ∅
  end.

(* ===================================================================== *)
(** ** sdk results                                                        *)
(* ===================================================================== *)

Record OperationResult := mkResult {
  Success : bool;
  Message : string;
  Outputs : gmap string string;
  Error   : string
}.

Record OperationRequest := mkRequest { Args : any }.

(** Modelled from the spec: the constructors of the external [sdk] package
    ([sdk.Success], [sdk.SuccessWithOutputs], [sdk.Failure]) are not part of
    this repository.  Section 3 of the specification gives the result
    envelope: a success flag, a human-readable message, an optional output
    mapping, and an error text that is present iff the operation failed. *)
Definition sdk_Success (message : string) : OperationResult :=
  mkResult true message ∅ "".

Definition sdk_SuccessWithOutputs (message : string) (outputs : gmap string string)
  : OperationResult :=
  mkResult true message outputs "".

Definition sdk_Failure (err : GoError) : OperationResult :=
  mkResult false "" ∅ (err_Error err).

(* ===================================================================== *)
(** ** generateID                                                         *)
(* ===================================================================== *)

Definition alphanumeric : string := "abcdefghijklmnopqrstuvwxyz0123456789".

(** The outcome of [rand.Read(b)] on a buffer: either every position of the
    buffer is overwritten ([fill i] is the byte written at index [i]) or an
    error is returned. *)
Inductive RandRead :=
| RandFilled (fill : nat → Byte.byte)
| RandFailed (err : GoError).

(** [int(b) % len(alphanumeric)] *)
Definition symbol_index (b : Byte.byte) : nat :=
  Byte.to_nat b `mod` String.length alphanumeric.

(** [alphanumeric[int(b) % len(alphanumeric)]]; an index past the end would
    be a run-time panic in Go and is [None] here. *)
Definition symbol_at (b : Byte.byte) : option ascii :=
  String.get (symbol_index b) alphanumeric.

(** The loop [for i := range b { b[i] = alphanumeric[...] }] never leaves the
    string (see [symbol_at_total]); the default is unreachable. *)
Definition symbol (b : Byte.byte) : ascii :=
  default "000"%char (symbol_at b).

Definition generateID (length : nat) (r : RandRead) : string + GoError :=
  match r with
  | RandFailed err => inr (Errorf_w "failed to generate random id: " err)
  | RandFilled fill =>
      inl (string_of_list_ascii (map (λ i, symbol (fill i)) (seq 0 length)))
  end.

(** *** The 256 byte values and how they fall on the alphabet *)

Definition all_bytes : list Byte.byte :=
  omap Byte.of_nat (seq 0 256).

(** Number of byte values that [generateID] maps to the symbol at index [k]. *)
Definition preimage_count (k : nat) : nat :=
  length (filter (λ b, symbol_index b = k) all_bytes).

(** Lowercase letter or digit. *)
Definition is_lower_alnum (c : ascii) : bool :=
  let n := nat_of_ascii c in
  (((97 <=? n) && (n <=? 122)) || ((48 <=? n) && (n <=? 57)))%nat.

(** [name] has the shape [prefix-xxxxxxxx] with eight lowercase
    alphanumeric characters. *)
Definition generated_name (prefix name : string) : Prop :=
  ∃ id : string,
    name = prefix +:+ "-" +:+ id ∧
    String.length id = 8 ∧
    Forall (λ c, is_lower_alnum c = true) (list_ascii_of_string id).

(* ===================================================================== *)
(** ** The extension and what it can reach                                *)
(* ===================================================================== *)

Record GroupVersionResource := mkGVR {
  Group : string; Version : string; Resource : string
}.

Definition namespaceGVR : GroupVersionResource := mkGVR "" "v1" "namespaces".

Inductive DeletionPropagation :=
| DeletePropagationOrphan
| DeletePropagationBackground
| DeletePropagationForeground.

Record DeleteOptions := mkDeleteOptions {
  PropagationPolicy : option DeletionPropagation
}.

Record Unstructured := mkUnstructured { Object : gmap string any }.

(** [u.GetName()]: the nested string [metadata.name], or the empty string. *)
Definition GetName (u : Unstructured) : string :=
  match Object u !! "metadata" with
  | Some (AObject metadata) => get_string metadata "name"
  | _ => ""
  end.

(** The methods of the [ResourceClient] interface that namespace.go calls.
    The interface is implemented by the cluster adapter and by the test
    double; both may carry state of their own, of type [C].  A Go result
    pair (object, error) is a sum here: a client that returns neither an
    object nor an error makes [handleCreateNamespace] dereference nil, which
    is a panic and not a result. *)
Record ResourceClient (C : Type) := mkClient {
  Create : GroupVersionResource → Unstructured → string → C →
           (Unstructured + GoError) * C;
  Delete : GroupVersionResource → string → string → DeleteOptions → C →
           option GoError * C
}.
Arguments mkClient {C} _ _.
Arguments Create {C} _ _ _ _ _.
Arguments Delete {C} _ _ _ _ _ _.

(** A client that answers a create call with the object it has stored: the
    object returned carries the name it was submitted under.  The double of
    the tests, whose [createFn] returns [obj.DeepCopy()], is such a
    client. *)
Definition returns_submitted_name {C} (cl : ResourceClient C) : Prop :=
  ∀ gvr obj namespace c result c',
    Create cl gvr obj namespace c = (inl result, c') →
    GetName result = GetName obj.

(** One entry per call that went through the client, with its answer. *)
Inductive ApiEvent :=
| EvCreate (gvr : GroupVersionResource) (obj : Unstructured) (namespace : string)
           (res : Unstructured + GoError)
| EvDelete (gvr : GroupVersionResource) (name namespace : string)
           (opts : DeleteOptions) (res : option GoError).

Inductive LogLevel := LevelInfo | LevelError.

Record LogEntry := mkLog {
  log_level : LogLevel; log_message : string; log_fields : gmap string any
}.

(** The fields of [Extension] ([client], [kubeconfigPath],
    [generatedNamespaces]; the mutex has no content of its own) and the
    environment behind them. *)
Record World (C : Type) := mkWorld {
  client : option (ResourceClient C);
  kubeconfigPath : string;
  generatedNamespaces : list string;
  client_state : C;
  (** [exec.CommandContext(ctx, name, args...).CombinedOutput()] *)
  CombinedOutput : string → list string → string * option GoError;
  api_calls : list ApiEvent;
  shell_calls : list (string * list string);
  log_entries : list LogEntry
}.
Arguments mkWorld {C} _ _ _ _ _ _ _ _.
Arguments client {C} _.
Arguments kubeconfigPath {C} _.
Arguments generatedNamespaces {C} _.
Arguments client_state {C} _.
Arguments CombinedOutput {C} _ _ _.
Arguments api_calls {C} _.
Arguments shell_calls {C} _.
Arguments log_entries {C} _.

(** A small state monad over the world. *)
Definition M (C A : Type) : Type := World C → A * World C.

#[global] Instance M_ret {C} : MRet (M C) := λ A a w, (a, w).

#[global] Instance M_bind {C} : MBind (M C) :=
  λ A B k m w, let '(a, w') := m w in k a w'.

Definition ret {C A} (a : A) : M C A := mret a.

Section Primitives.
Context {C : Type}.

Definition set_generatedNamespaces (l : list string) (w : World C) : World C :=
  mkWorld (client w) (kubeconfigPath w) l (client_state w) (CombinedOutput w)
          (api_calls w) (shell_calls w) (log_entries w).

Definition set_client_state (c : C) (ev : ApiEvent) (w : World C) : World C :=
  mkWorld (client w) (kubeconfigPath w) (generatedNamespaces w) c
          (CombinedOutput w) (api_calls w ++ [ev]) (shell_calls w)
          (log_entries w).

Definition add_shell_call (c : string * list string) (w : World C) : World C :=
  mkWorld (client w) (kubeconfigPath w) (generatedNamespaces w)
          (client_state w) (CombinedOutput w) (api_calls w)
          (shell_calls w ++ [c]) (log_entries w).

Definition add_log (l : LogEntry) (w : World C) : World C :=
  mkWorld (client w) (kubeconfigPath w) (generatedNamespaces w)
          (client_state w) (CombinedOutput w) (api_calls w) (shell_calls w)
          (log_entries w ++ [l]).

Definition get_world : M C (World C) := λ w, (w, w).

Definition LogInfo (msg : string) (fields : gmap string any) : M C unit :=
  λ w, (tt, add_log (mkLog LevelInfo msg fields) w).

Definition LogError (msg : string) (fields : gmap string any) : M C unit :=
  λ w, (tt, add_log (mkLog LevelError msg fields) w).

(** [e.client.Create(ctx, gvr, obj, namespace)] *)
Definition client_Create (cl : ResourceClient C) (gvr : GroupVersionResource)
    (obj : Unstructured) (namespace : string) : M C (Unstructured + GoError) :=
  λ w, let '(res, c) := Create cl gvr obj namespace (client_state w) in
       (res, set_client_state c (EvCreate gvr obj namespace res) w).

(** [e.client.Delete(ctx, gvr, name, namespace, opts)] *)
Definition client_Delete (cl : ResourceClient C) (gvr : GroupVersionResource)
    (name namespace : string) (opts : DeleteOptions) : M C (option GoError) :=
  λ w, let '(res, c) := Delete cl gvr name namespace opts (client_state w) in
       (res, set_client_state c (EvDelete gvr name namespace opts res) w).

(** [e.mu.Lock(); e.generatedNamespaces = append(e.generatedNamespaces, name);
    e.mu.Unlock()] *)
Definition track_namespace (name : string) : M C unit :=
  λ w, (tt, set_generatedNamespaces (generatedNamespaces w ++ [name]) w).

(** [e.mu.Lock(); namespaces := copy of e.generatedNamespaces;
    e.generatedNamespaces = nil; e.mu.Unlock()] *)
Definition take_namespaces : M C (list string) :=
  λ w, (generatedNamespaces w, set_generatedNamespaces [] w).

(** [exec.CommandContext(ctx, name, args...).CombinedOutput()] *)
Definition run_command (name : string) (args : list string)
  : M C (string * option GoError) :=
  λ w, (CombinedOutput w name args, add_shell_call (name, args) w).
End Primitives.

(* ===================================================================== *)
(** ** namespace.go                                                       *)
(* ===================================================================== *)

Section Namespace.
Context {C : Type}.

(** The manifest built by [handleCreateNamespace]. *)
Definition namespace_manifest (name : string) : Unstructured :=
  mkUnstructured
    (<["apiVersion" := AString "v1"]>
     (<["kind" := AString "Namespace"]>
      {["metadata" := AObject {["name" := AString name]}]})).

Definition handleCreateNamespace (rnd : RandRead) (req : OperationRequest)
  : M C OperationResult :=
  e ← get_world;
  match client e with
  | None => ret (sdk_Failure (errors_New "kubernetes client not initialized"))
  | Some cl =>
    match Args req with
    | AObject args =>
      let prefix := get_string args "prefix" in
      if decide (prefix = "") then
        ret (sdk_Failure (errors_New "prefix is required"))
      else
        match generateID 8 rnd with
        | inr err => ret (sdk_Failure err)
        | inl id =>
          let name := prefix +:+ "-" +:+ id in
          let obj := namespace_manifest name in
          LogInfo "Creating namespace" {["name" := AString name]};;
          res ← client_Create cl namespaceGVR obj "";
          match res with
          | inr err =>
            LogError "Failed to create namespace"
              (<["name" := AString name]>
               {["error" := AString (err_Error err)]});;
            ret (sdk_Failure (Errorf_w "failed to create namespace: " err))
          | inl result =>
            track_namespace (GetName result);;
            LogInfo "Namespace created successfully"
              {["name" := AString (GetName result)]};;
            ret (sdk_SuccessWithOutputs
                   ("Created namespace " +:+ GetName result)
                   {["namespace" := GetName result]})
          end
        end
    | _ => ret (sdk_Failure (errors_New "args must be an object"))
    end
  end.

Definition deleteOpts : DeleteOptions :=
  mkDeleteOptions (Some DeletePropagationForeground).

(** One iteration of [for _, ns := range namespaces]: the delete call and
    the bookkeeping on [errs]. *)
Definition delete_one (cl : ResourceClient C) (ns : string) (errs : list string)
  : M C (list string) :=
  err ← client_Delete cl namespaceGVR ns "" deleteOpts;
  match err with
  | Some err =>
    if err_IsNotFound err then
      LogInfo "Namespace already deleted (ignored)" {["name" := AString ns]};;
      ret errs
    else
      LogError "Failed to delete namespace"
        (<["name" := AString ns]> {["error" := AString (err_Error err)]});;
      ret (errs ++ [ns +:+ ": " +:+ err_Error err])
  | None => ret errs
  end.

Fixpoint delete_loop (cl : ResourceClient C) (namespaces : list string)
    (errs : list string) : M C (list string) :=
  match namespaces with
  | [] => ret errs
  | ns :: rest =>
    errs' ← delete_one cl ns errs;
    delete_loop cl rest errs'
  end.

(** The two [return] statements after the loop. *)
Definition delete_result (namespaces errs : list string) : OperationResult :=
  if decide (0 < length errs) then
    sdk_Failure (errors_New ("failed to delete namespaces: "
                             +:+ strings_Join errs "; "))
  else
    sdk_Success ("Deleted " +:+ Sprintf_d (length namespaces)
                 +:+ " generated namespace(s)").

Definition handleDeleteGeneratedNamespaces (req : OperationRequest)
  : M C OperationResult :=
  e ← get_world;
  match client e with
  | None => ret (sdk_Failure (errors_New "kubernetes client not initialized"))
  | Some cl =>
    namespaces ← take_namespaces;
    if decide (length namespaces = 0) then
      ret (sdk_Success "No generated namespaces to delete")
    else
      LogInfo "Deleting generated namespaces"
        (<["count" := ANumber (Z.of_nat (length namespaces))]>
         {["namespaces" := ASlice (AString <$> namespaces)]});;
      errs ← delete_loop cl namespaces [];
      ret (delete_result namespaces errs)
  end.
End Namespace.

(* ===================================================================== *)
(** ** The Helm handlers                                                  *)
(* ===================================================================== *)

Section Helm.
Context {C : Type}.

(** [fmt.Sprintf("%v", v)] on a decoded JSON value. *)
Variable Sprintf_v : any → string.

(** [json.Unmarshal(output, &releases)] with [releases] a slice of
    string-keyed maps. *)
Variable json_Unmarshal : string → list (gmap string any) + GoError.

Definition newline : string := String (ascii_of_nat 10) "".

(** [if cond { cmdArgs = append(cmdArgs, extra...) }] *)
Definition append_if (cond : bool) (cmdArgs extra : list string) : list string :=
  if cond then cmdArgs ++ extra else cmdArgs.

Definition nonempty (s : string) : bool := negb (bool_decide (s = "")).

(** [for k, v := range values { cmdArgs = append(cmdArgs, "--set", k=v) }];
    Go leaves the iteration order of a map open, the order of
    [map_to_list] is one of the possible ones. *)
Definition append_set_flags (cmdArgs : list string) (values : gmap string any)
  : list string :=
  foldl (λ acc kv, acc ++ ["--set"; kv.1 +:+ "=" +:+ Sprintf_v kv.2])
        cmdArgs (map_to_list values).

Definition handleHelmInstall (req : OperationRequest) : M C OperationResult :=
  match Args req with
  | AObject args =>
    let '(chart, ok) := get_string_ok args "chart" in
    if negb ok || bool_decide (chart = "") then
      ret (sdk_Failure (errors_New "chart parameter is required"))
    else
      let name := get_string args "name" in
      let namespace := get_string args "namespace" in
      let values := get_map args "values" in
      let cmdArgs := ["install"] in
      let cmdArgs :=
        if nonempty name then cmdArgs ++ [name]
        else cmdArgs ++ ["--generate-name"] in
      let cmdArgs := cmdArgs ++ [chart] in
      let cmdArgs := append_if (nonempty namespace) cmdArgs
                               ["--namespace"; namespace] in
      e ← get_world;
      let cmdArgs := append_if (nonempty (kubeconfigPath e)) cmdArgs
                               ["--kubeconfig"; kubeconfigPath e] in
      let cmdArgs := append_set_flags cmdArgs values in
      LogInfo "Installing Helm chart"
        (<["chart" := AString chart]>
         (<["name" := AString name]> {["namespace" := AString namespace]}));;
      out ← run_command "helm" cmdArgs;
      let '(output, err) := out in
      match err with
      | Some err =>
        LogError "Helm install failed"
          (<["chart" := AString chart]> {["error" := AString (err_Error err)]});;
        ret (sdk_Failure (errors_New ("helm install failed: " +:+ err_Error err
                                      +:+ newline +:+ "Output: " +:+ output)))
      | None =>
        LogInfo "Helm chart installed successfully"
          (<["chart" := AString chart]> {["name" := AString name]});;
        ret (sdk_Success ("Helm chart installed successfully" +:+ newline
                          +:+ output))
      end
  | _ => ret (sdk_Failure (errors_New "args must be an object"))
  end.

(** One line of the release listing. *)
Definition release_line (release : gmap string any) : string :=
  "  - " +:+ get_string release "name"
  +:+ " (namespace: " +:+ get_string release "namespace"
  +:+ ", status: " +:+ get_string release "status"
  +:+ ", chart: " +:+ get_string release "chart" +:+ ")" +:+ newline.

Definition handleHelmList (req : OperationRequest) : M C OperationResult :=
  match Args req with
  | AObject args =>
    let cmdArgs := ["list"; "--output"; "json"] in
    let namespace := get_string args "namespace" in
    let allNamespaces := get_bool args "allNamespaces" in
    let cmdArgs :=
      if allNamespaces then cmdArgs ++ ["--all-namespaces"]
      else append_if (nonempty namespace) cmdArgs ["--namespace"; namespace] in
    e ← get_world;
    let cmdArgs := append_if (nonempty (kubeconfigPath e)) cmdArgs
                             ["--kubeconfig"; kubeconfigPath e] in
    LogInfo "Listing Helm releases"
      (<["namespace" := AString namespace]>
       {["allNamespaces" := ABool allNamespaces]});;
    out ← run_command "helm" cmdArgs;
    let '(output, err) := out in
    match err with
    | Some err =>
      LogError "Helm list failed" {["error" := AString (err_Error err)]};;
      ret (sdk_Failure (errors_New ("helm list failed: " +:+ err_Error err
                                    +:+ newline +:+ "Output: " +:+ output)))
    | None =>
      let parsed :=
        if decide (0 < String.length output) then json_Unmarshal output
        else inl [] in
      match parsed with
      | inr err =>
        ret (sdk_Failure (errors_New ("failed to parse helm list output: "
                                      +:+ err_Error err)))
      | inl releases =>
        if decide (length releases = 0) then
          ret (sdk_Success "No Helm releases found")
        else
          ret (sdk_Success
                 (foldl (λ acc release, acc +:+ release_line release)
                        ("Found " +:+ Sprintf_d (length releases)
                         +:+ " Helm release(s):" +:+ newline)
                        releases))
      end
    end
  | _ => ret (sdk_Failure (errors_New "args must be an object"))
  end.

Definition handleHelmUninstall (req : OperationRequest) : M C OperationResult :=
  match Args req with
  | AObject args =>
    let '(name, ok) := get_string_ok args "name" in
    if negb ok || bool_decide (name = "") then
      ret (sdk_Failure (errors_New "name parameter is required"))
    else
      let cmdArgs := ["uninstall"; name] in
      let namespace := get_string args "namespace" in
      let cmdArgs := append_if (nonempty namespace) cmdArgs
                               ["--namespace"; namespace] in
      e ← get_world;
      let cmdArgs := append_if (nonempty (kubeconfigPath e)) cmdArgs
                               ["--kubeconfig"; kubeconfigPath e] in
      LogInfo "Uninstalling Helm release"
        (<["name" := AString name]> {["namespace" := AString namespace]});;
      out ← run_command "helm" cmdArgs;
      let '(output, err) := out in
      match err with
      | Some err =>
        if strings_Contains output "not found" then
          LogInfo "Helm release not found (ignored)" {["name" := AString name]};;
          ret (sdk_Success ("Helm release '" +:+ name
                            +:+ "' not found (already uninstalled)"))
        else
          LogError "Helm uninstall failed"
            (<["name" := AString name]> {["error" := AString (err_Error err)]});;
          ret (sdk_Failure (errors_New ("helm uninstall failed: "
                                        +:+ err_Error err +:+ newline
                                        +:+ "Output: " +:+ output)))
      | None =>
        LogInfo "Helm release uninstalled successfully"
          {["name" := AString name]};;
        ret (sdk_Success ("Helm release '" +:+ name
                          +:+ "' uninstalled successfully" +:+ newline
                          +:+ output))
      end
  | _ => ret (sdk_Failure (errors_New "args must be an object"))
  end.
End Helm.

(* ===================================================================== *)
(** ** Interleaving of bulk deletes                                       *)
(* ===================================================================== *)

(** [handleDeleteGeneratedNamespaces] cut at the points where another
    goroutine can run: the critical section under [e.mu] is one step, every
    [e.client.Delete] call (with the bookkeeping that follows it) is one
    step, and so is the final [return].  The client is taken to be safe for
    concurrent use, so its calls are atomic. *)
Inductive DeleteCall :=
| DelEntry
| DelLoop (namespaces rest errs : list string)
| DelReturned (namespaces : option (list string)) (r : OperationResult).

(** The snapshot a call has read out of the tracked list so far. *)
Definition observed (t : DeleteCall) : list string :=
  match t with
  | DelEntry => []
  | DelLoop namespaces _ _ => namespaces
  | DelReturned namespaces _ => default [] namespaces
  end.

(** The part of the snapshot for which no delete has been issued yet. *)
Definition pending (t : DeleteCall) : list string :=
  match t with
  | DelLoop _ rest _ => rest
  | _ => []
  end.

Definition returned (t : DeleteCall) : bool :=
  match t with
  | DelReturned _ _ => true
  | _ => false
  end.

(** The call has left its entry point. *)
Definition started (t : DeleteCall) : bool :=
  match t with
  | DelEntry => false
  | _ => true
  end.

Definition result_of (t : DeleteCall) : option OperationResult :=
  match t with
  | DelReturned _ r => Some r
  | _ => None
  end.

(** The names of the delete calls in a log, in call order. *)
Definition deleted_names (evs : list ApiEvent) : list string :=
  omap (λ ev, match ev with
              | EvDelete _ name _ _ _ => Some name
              | EvCreate _ _ _ _ => None
              end) evs.

(** The delete call [handleDeleteGeneratedNamespaces] issues for [ns], with
    the client's answer. *)
Definition delete_event (ns : string) (answer : option GoError) : ApiEvent :=
  EvDelete namespaceGVR ns "" (mkDeleteOptions (Some DeletePropagationForeground))
           answer.

(** What the client answers when it is asked to delete each of [names], one
    call after the other, every call made on the client state the previous
    one left: the answers, and the client state after the last call. *)
Fixpoint delete_answers {C} (cl : ResourceClient C) (names : list string) (c : C)
  : list (option GoError) * C :=
  match names with
  | [] => ([], c)
  | ns :: rest =>
    let '(answer, c1) :=
      Delete cl namespaceGVR ns "" (mkDeleteOptions (Some DeletePropagationForeground))
             c in
    let '(answers, c2) := delete_answers cl rest c1 in
    (answer :: answers, c2)
  end.

(** The lines a log of delete calls contributes to the failure message:
    one per call answered with an error that is not a not-found. *)
Definition delete_failures (evs : list ApiEvent) : list string :=
  omap (λ ev, match ev with
              | EvDelete _ name _ _ (Some err) =>
                if err_IsNotFound err then None
                else Some (name +:+ ": " +:+ err_Error err)
              | _ => None
              end) evs.

(** A delete call the client carried out. *)
Definition delete_performed (ev : ApiEvent) : bool :=
  match ev with
  | EvDelete _ _ _ _ None => true
  | _ => false
  end.

(** A delete call answered with not-found. *)
Definition delete_already_gone (ev : ApiEvent) : bool :=
  match ev with
  | EvDelete _ _ _ _ (Some err) => err_IsNotFound err
  | _ => false
  end.

Definition deletes_performed (evs : list ApiEvent) : nat :=
  length (filter (λ ev, delete_performed ev = true) evs).

Definition deletes_already_gone (evs : list ApiEvent) : nat :=
  length (filter (λ ev, delete_already_gone ev = true) evs).

Inductive Tid := T1 | T2.

Section Interleaving.
Context {C : Type}.

Definition delete_step (t : DeleteCall) : M C DeleteCall :=
  match t with
  | DelEntry =>
    e ← get_world;
    match client e with
    | None =>
      ret (DelReturned None
             (sdk_Failure (errors_New "kubernetes client not initialized")))
    | Some _ =>
      namespaces ← take_namespaces;
      if decide (length namespaces = 0) then
        ret (DelReturned (Some namespaces)
               (sdk_Success "No generated namespaces to delete"))
      else
        LogInfo "Deleting generated namespaces"
          (<["count" := ANumber (Z.of_nat (length namespaces))]>
           {["namespaces" := ASlice (AString <$> namespaces)]});;
        ret (DelLoop namespaces namespaces [])
    end
  | DelLoop namespaces (ns :: rest) errs =>
    e ← get_world;
    match client e with
    | Some cl =>
      errs' ← delete_one cl ns errs;
      ret (DelLoop namespaces rest errs')
    | None => ret t (* a call on a nil interface: no result, the call is stuck *)
    end
  | DelLoop namespaces [] errs =>
    ret (DelReturned (Some namespaces) (delete_result namespaces errs))
  | DelReturned _ _ => ret t
  end.

(** A call running with nothing else in between. *)
Fixpoint delete_run (fuel : nat) (t : DeleteCall) : M C DeleteCall :=
  match fuel with
  | 0 => ret t
  | S fuel' => t' ← delete_step t; delete_run fuel' t'
  end.

(** Two calls in flight; the schedule says whose step comes next. *)
Definition step_pair (who : Tid) (ts : DeleteCall * DeleteCall)
  : M C (DeleteCall * DeleteCall) :=
  match who with
  | T1 => t ← delete_step ts.1; ret (t, ts.2)
  | T2 => t ← delete_step ts.2; ret (ts.1, t)
  end.

Fixpoint run_schedule (sched : list Tid) (ts : DeleteCall * DeleteCall)
  : M C (DeleteCall * DeleteCall) :=
  match sched with
  | [] => ret ts
  | who :: sched' => ts' ← step_pair who ts; run_schedule sched' ts'
  end.

(** What holds between two calls started on the tracked list [L] with
    the log [A0], at every point of every schedule. *)
Definition interleaving_inv (L : list string) (A0 : list ApiEvent) (cl : ResourceClient C)
    (ts : DeleteCall * DeleteCall) (w : World C) : Prop :=
  client w = Some cl ∧
  ∃ evs,
    api_calls w = A0 ++ evs ∧
    deleted_names evs ++ pending ts.1 ++ pending ts.2 ++ generatedNamespaces w
      ≡ₚ L ∧
    observed ts.1 ++ observed ts.2 ++ generatedNamespaces w ≡ₚ L ∧
    (observed ts.1 = [] ∨ observed ts.2 = []) ∧
    (generatedNamespaces w = [] ∨
     (ts = (DelEntry, DelEntry) ∧ generatedNamespaces w = L ∧ evs = [])).


(** An upper bound on the steps a call still needs. *)
Definition steps_left (t : DeleteCall) (w : World C) : nat :=
  match t with
  | DelEntry => length (generatedNamespaces w) + 2
  | DelLoop _ rest _ => length rest + 1
  | DelReturned _ _ => 0
  end.
End Interleaving.

(* ===================================================================== *)
(** ** The condition-wait engine                                          *)
(* ===================================================================== *)

Module WaitEngine.

(** One entry of [status.conditions]. *)
Record Condition := mkCondition { cond_type : string; cond_status : string }.

(** The arguments of the [wait] operation after decoding; [None] stands
    for an optional argument that was not given. *)
Record WaitSpec := mkWaitSpec {
  apiVersion : string;
  kind : string;
  name : string;
  namespace : string;
  condition : string;
  status : option string;
  timeout : option nat
}.

(** Time is counted in milliseconds. *)
Definition expectedStatus (s : WaitSpec) : string := default "True" (status s).
Definition timeoutOf (s : WaitSpec) : nat := default (60 * 1000) (timeout s).

(** What the engine sees of its surroundings: the answer of the client's
    read at an instant (the status conditions of the resource, or an
    error), the caller's cancellation signal, and the fixed sleep between
    two polls. *)
Record Env := mkEnv {
  Get : nat → list Condition + GoError;
  canceled : nat → bool;
  interval : nat
}.

Inductive State :=
| POLLING
| SATISFIED (elapsed : nat)
| TIMED_OUT (elapsed : nat)
| CANCELED
| FAILED (err : GoError).

(** Modelled from the spec: the scan of the status conditions done by the
    wait handler, which is not among the sources.  Section 4.3: an entry is
    looked for whose type is the requested condition name and whose status
    is the expected status. *)
Definition condition_met (s : WaitSpec) (conds : list Condition) : bool :=
  existsb (λ c, bool_decide (cond_type c = condition s)
                && bool_decide (cond_status c = expectedStatus s)) conds.

(** Modelled from the spec: the polling loop of the wait handler
    ([handleWait], registered in operations.go but not among the sources).
    Section 4.3: the deadline is [start + timeout]; every iteration observes
    the cancellation signal, reads the resource, treats not-found as
    not-yet-satisfied and any other read error as terminal, evaluates the
    condition, and only then compares the clock with the deadline.  Between
    two polls the engine sleeps for the fixed interval, but never past the
    deadline: when the deadline is reached while the engine is still
    polling the iteration made at that instant ends the wait, with the
    condition check before the timeout check.  [fuel] bounds the number of
    iterations; running out of it leaves the engine in [POLLING]. *)
Fixpoint poll (fuel : nat) (env : Env) (s : WaitSpec) (start now : nat) : State :=
  match fuel with
  | 0 => POLLING
  | S fuel' =>
    if canceled env now then CANCELED
    else
      let next :=
        if decide (start + timeoutOf s ≤ now)%nat then TIMED_OUT (now - start)
        else poll fuel' env s start
               (Nat.min (now + interval env) (start + timeoutOf s)) in
      match Get env now with
      | inl conds =>
        if condition_met s conds then SATISFIED (now - start) else next
      | inr err =>
        if err_IsNotFound err then next else FAILED err
      end
  end.

(** One poll per millisecond of the timeout, and one more, is the most a
    positive interval allows. *)
Definition wait (env : Env) (s : WaitSpec) (start : nat) : State :=
  poll (S (timeoutOf s)) env s start start.

(** Modelled from the spec: the result envelope of the wait operation
    (section 4.3: success carries the elapsed time, a timeout names the
    condition, the expected status and the elapsed time).  [None] is a
    handler that has not returned. *)
Definition handleWait (env : Env) (s : WaitSpec) (start : nat)
  : option OperationResult :=
  match wait env s start with
  | POLLING => None
  | SATISFIED elapsed =>
    Some (sdk_Success ("Condition " +:+ condition s +:+ "="
                       +:+ expectedStatus s +:+ " met after "
                       +:+ Sprintf_d elapsed +:+ "ms"))
  | TIMED_OUT elapsed =>
    Some (sdk_Failure (errors_New
            ("timed out waiting for condition " +:+ condition s +:+ "="
             +:+ expectedStatus s +:+ " on " +:+ namespace s +:+ "/"
             +:+ name s +:+ " after " +:+ Sprintf_d elapsed +:+ "ms")))
  | CANCELED => Some (sdk_Failure (errors_New "wait canceled"))
  | FAILED err => Some (sdk_Failure (Errorf_w "failed to get resource: " err))
  end.

(** The instant of the [k]-th poll: the polls are an interval apart until
    the deadline, at which the last one is made. *)
Definition instant (env : Env) (s : WaitSpec) (start k : nat) : nat :=
  Nat.min (start + k * interval env) (start + timeoutOf s).

(** The poll at instant [t] finds the condition as expected. *)
Definition hit (env : Env) (s : WaitSpec) (t : nat) : bool :=
  negb (canceled env t) &&
  match Get env t with
  | inl conds => condition_met s conds
  | inr _ => false
  end.

(** The poll at instant [t] neither ends the wait nor is cut short: no
    cancellation, and the read is not-found or an object that does not
    show the condition yet. *)
Definition quiet (env : Env) (s : WaitSpec) (t : nat) : bool :=
  negb (canceled env t) &&
  match Get env t with
  | inl conds => negb (condition_met s conds)
  | inr err => err_IsNotFound err
  end.

End WaitEngine.

(* ===================================================================== *)
(** ** The permission probe                                               *)
(* ===================================================================== *)

Module PermissionProbe.

Record PermissionQuery := mkQuery {
  verb : string;
  resource : string;
  subject : string;
  namespace : string;
  apiGroup : string;
  resourceName : string;
  expectedAllowed : option bool
}.

(** [expect.allowed], when [expect] is an object that holds a boolean. *)
Definition expect_allowed (args : gmap string any) : option bool :=
  match args !! "expect" with
  | Some (AObject expect) =>
    match expect !! "allowed" with
    | Some (ABool b) => Some b
    | _ => None
    end
  | _ => None
  end.

(** Modelled from the spec: the decoding of the [authCanI] arguments
    (section 6: [verb], [resource] and [as] are required, the rest is
    optional; section 4.5: a handler fails on a missing required field). *)
Definition decode (args : gmap string any) : PermissionQuery + GoError :=
  let verb := get_string args "verb" in
  let resource := get_string args "resource" in
  let subject := get_string args "as" in
  if bool_decide (verb = "") then inr (errors_New "verb is required")
  else if bool_decide (resource = "") then inr (errors_New "resource is required")
  else if bool_decide (subject = "") then inr (errors_New "as is required")
  else inl (mkQuery verb resource subject
                    (get_string args "namespace") (get_string args "apiGroup")
                    (get_string args "resourceName") (expect_allowed args)).

Definition Sprintf_t (b : bool) : string := if b then "true" else "false".

(** Modelled from the spec: the permission probe ([handleAuthCanI],
    registered in operations.go but not among the sources).  Section 4.4:
    one call of the client's permission check; with an expectation the
    success of the operation is [allowed == expectedAllowed]; the raw
    answer is in the outputs either way.  [check] is the client's
    [CheckPermission] capability, [None] an uninitialized client. *)
Definition handleAuthCanI
    (check : option (PermissionQuery → bool + GoError))
    (req : OperationRequest) : OperationResult :=
  match check with
  | None => sdk_Failure (errors_New "kubernetes client not initialized")
  | Some CheckPermission =>
    match Args req with
    | AObject args =>
      match decode args with
      | inr err => sdk_Failure err
      | inl query =>
        match CheckPermission query with
        | inr err => sdk_Failure (Errorf_w "failed to check access: " err)
        | inl allowed =>
          let outputs : gmap string string :=
            {["allowed" := Sprintf_t allowed]} in
          let message :=
            subject query +:+ (if allowed then " can " else " cannot ")
            +:+ verb query +:+ " " +:+ resource query in
          match expectedAllowed query with
          | Some expected =>
            if bool_decide (allowed = expected) then
              sdk_SuccessWithOutputs message outputs
            else
              mkResult false message outputs
                ("expected allowed=" +:+ Sprintf_t expected +:+ ", got "
                 +:+ Sprintf_t allowed)
          | None => sdk_SuccessWithOutputs message outputs
          end
        end
      end
    | _ => sdk_Failure (errors_New "args must be an object")
    end
  end.

End PermissionProbe.

(* ===================================================================== *)
(** ** Interleaving of a create with a bulk delete                        *)
(* ===================================================================== *)

(** [handleCreateNamespace] cut at the points where another goroutine can
    run: everything up to and including the [e.client.Create] call is one
    step (the checks before it touch nothing shared once [e.client] has been
    read), the critical section under [e.mu] with the bookkeeping after it
    is the next. *)
Inductive CreateCall :=
| CrEntry (rnd : RandRead) (req : OperationRequest)
| CrCreated (result : Unstructured)
| CrReturned (tracked : option string) (r : OperationResult).

(** The name a create call has appended to the tracked list so far. *)
Definition created (t : CreateCall) : list string :=
  match t with
  | CrReturned (Some name) _ => [name]
  | _ => []
  end.

Definition create_returned (t : CreateCall) : bool :=
  match t with
  | CrReturned _ _ => true
  | _ => false
  end.

Section CreateInterleaving.
Context {C : Type}.

Definition create_step (t : CreateCall) : M C CreateCall :=
  match t with
  | CrEntry rnd req =>
    e ← get_world;
    match client e with
    | None =>
      ret (CrReturned None
             (sdk_Failure (errors_New "kubernetes client not initialized")))
    | Some cl =>
      match Args req with
      | AObject args =>
        let prefix := get_string args "prefix" in
        if decide (prefix = "") then
          ret (CrReturned None (sdk_Failure (errors_New "prefix is required")))
        else
          match generateID 8 rnd with
          | inr err => ret (CrReturned None (sdk_Failure err))
          | inl id =>
            let name := prefix +:+ "-" +:+ id in
            let obj := namespace_manifest name in
            LogInfo "Creating namespace" {["name" := AString name]};;
            res ← client_Create cl namespaceGVR obj "";
            match res with
            | inr err =>
              LogError "Failed to create namespace"
                (<["name" := AString name]>
                 {["error" := AString (err_Error err)]});;
              ret (CrReturned None
                     (sdk_Failure (Errorf_w "failed to create namespace: " err)))
            | inl result => ret (CrCreated result)
            end
          end
      | _ =>
        ret (CrReturned None (sdk_Failure (errors_New "args must be an object")))
      end
    end
  | CrCreated result =>
    track_namespace (GetName result);;
    LogInfo "Namespace created successfully"
      {["name" := AString (GetName result)]};;
    ret (CrReturned (Some (GetName result))
           (sdk_SuccessWithOutputs
              ("Created namespace " +:+ GetName result)
              {["namespace" := GetName result]}))
  | CrReturned _ _ => ret t
  end.

Fixpoint create_run (fuel : nat) (t : CreateCall) : M C CreateCall :=
  match fuel with
  | 0 => ret t
  | S fuel' => t' ← create_step t; create_run fuel' t'
  end.

(** A create ([T1]) and a bulk delete ([T2]) in flight. *)
Definition step_mixed (who : Tid) (ts : CreateCall * DeleteCall)
  : M C (CreateCall * DeleteCall) :=
  match who with
  | T1 => t ← create_step ts.1; ret (t, ts.2)
  | T2 => t ← delete_step ts.2; ret (ts.1, t)
  end.

Fixpoint run_mixed (sched : list Tid) (ts : CreateCall * DeleteCall)
  : M C (CreateCall * DeleteCall) :=
  match sched with
  | [] => ret ts
  | who :: sched' => ts' ← step_mixed who ts; run_mixed sched' ts'
  end.

(** What holds between a create and a bulk delete started on the tracked
    list [L] with the log [A0], at every point of every schedule. *)
Definition mixed_inv (L : list string) (A0 : list ApiEvent)
    (cl : ResourceClient C) (ts : CreateCall * DeleteCall) (w : World C) : Prop :=
  client w = Some cl ∧
  created ts.1 ++ L ≡ₚ observed ts.2 ++ generatedNamespaces w ∧
  ∃ evs, api_calls w = A0 ++ evs ∧
         deleted_names evs ++ pending ts.2 = observed ts.2.
End CreateInterleaving.

(* ===================================================================== *)
(** ** extension.go                                                       *)
(* ===================================================================== *)

(** What [handleInitialize] reaches outside the extension: the operating
    system ([os.UserHomeDir], [os.Stat] followed by [os.IsNotExist],
    [filepath.Join]) and the client-go constructors.  [Cfg], [Dyn] and
    [Authz] are the types of the rest configuration and of the two clients
    built from it. *)
Record Host (Cfg Dyn Authz : Type) := mkHost {
  UserHomeDir : string + GoError;
  filepath_Join : list string → string;
  Stat_IsNotExist : string → bool;
  BuildConfigFromFlags : string → string → Cfg + GoError;
  dynamic_NewForConfig : Cfg → Dyn + GoError;
  authorization_NewForConfig : Cfg → Authz + GoError
}.
Arguments mkHost {Cfg Dyn Authz} _ _ _ _ _ _.
Arguments UserHomeDir {Cfg Dyn Authz} _.
Arguments filepath_Join {Cfg Dyn Authz} _ _.
Arguments Stat_IsNotExist {Cfg Dyn Authz} _ _.
Arguments BuildConfigFromFlags {Cfg Dyn Authz} _ _ _.
Arguments dynamic_NewForConfig {Cfg Dyn Authz} _ _.
Arguments authorization_NewForConfig {Cfg Dyn Authz} _ _.

(** The struct [dynamicClientAdapter] as [handleInitialize] fills it. *)
Record dynamicClientAdapter (Dyn Authz : Type) := mkAdapter {
  adapter_client : Dyn;
  adapter_authzClient : Authz;
  adapter_kubeconfigPath : string
}.
Arguments mkAdapter {Dyn Authz} _ _ _.
Arguments adapter_client {Dyn Authz} _.
Arguments adapter_authzClient {Dyn Authz} _.
Arguments adapter_kubeconfigPath {Dyn Authz} _.

(** [s[1:]] for a string that starts with a one-byte character. *)
Definition drop_first (s : string) : string :=
  match s with
  | EmptyString => EmptyString
  | String _ rest => rest
  end.

Section Initialize.
Context {C Cfg Dyn Authz : Type}.

(** The adapter seen through the [ResourceClient] interface; its methods
    are not among the sources. *)
Variable as_client : dynamicClientAdapter Dyn Authz → ResourceClient C.

Definition set_client (cl : option (ResourceClient C)) (w : World C) : World C :=
  mkWorld cl (kubeconfigPath w) (generatedNamespaces w) (client_state w)
          (CombinedOutput w) (api_calls w) (shell_calls w) (log_entries w).

(** The first half of [handleInitialize]: from the configuration to the
    path of the kubeconfig file. *)
Definition kubeconfig_path (host : Host Cfg Dyn Authz) (config : gmap string any)
  : string + GoError :=
  let kubeconfigPath := get_string config "kubeconfig" in
  let expanded :=
    if String.prefix "~" kubeconfigPath then
      match UserHomeDir host with
      | inr err => inr (Errorf_w "failed to get home directory: " err)
      | inl home => inl (filepath_Join host [home; drop_first kubeconfigPath])
      end
    else inl kubeconfigPath in
  match expanded with
  | inr err => inr err
  | inl kubeconfigPath =>
    if decide (kubeconfigPath = "") then
      match UserHomeDir host with
      | inr err => inr (Errorf_w "failed to get home directory: " err)
      | inl home => inl (filepath_Join host [home; ".kube"; "config"])
      end
    else inl kubeconfigPath
  end.

(** [handleInitialize]: the Go error it returns ([None] for [nil]) and the
    extension after it. *)
Definition handleInitialize (host : Host Cfg Dyn Authz) (config : gmap string any)
  : M C (option GoError) :=
  match kubeconfig_path host config with
  | inr err => ret (Some err)
  | inl kubeconfigPath =>
    if Stat_IsNotExist host kubeconfigPath then
      ret (Some (errors_New ("kubeconfig not found: " +:+ kubeconfigPath)))
    else
      match BuildConfigFromFlags host "" kubeconfigPath with
      | inr err =>
        ret (Some (Errorf_w ("failed to build kubeconfig from "
                             +:+ kubeconfigPath +:+ ": ") err))
      | inl kubeconfig =>
        match dynamic_NewForConfig host kubeconfig with
        | inr err => ret (Some (Errorf_w "failed to create dynamic client: " err))
        | inl client =>
          match authorization_NewForConfig host kubeconfig with
          | inr err =>
            ret (Some (Errorf_w "failed to create authorization client: " err))
          | inl authzClient =>
            λ w, (None,
                  set_client
                    (Some (as_client (mkAdapter client authzClient kubeconfigPath)))
                    w)
          end
        end
      end
  end.
End Initialize.

(* ===================================================================== *)
(** ** operations.go                                                      *)
(* ===================================================================== *)

(** The fields of [jsonschema.Schema] that [registerOperations] sets. *)
Inductive Schema :=
| mkSchema (Type_ : string) (Description : string)
           (Properties : gmap string Schema) (Required : list string).

Definition schema_Type (s : Schema) : string :=
  match s with mkSchema t _ _ _ => t end.
Definition schema_Properties (s : Schema) : gmap string Schema :=
  match s with mkSchema _ _ p _ => p end.
Definition schema_Required (s : Schema) : list string :=
  match s with mkSchema _ _ _ r => r end.

(** A property without properties of its own. *)
Definition leaf (type description : string) : Schema :=
  mkSchema type description ∅ [].

(** The handler methods passed to [AddOperation]. *)
Inductive Handler :=
| HandleCreate | HandleWait | HandleDelete | HandleAuthCanI
| HandleListContexts | HandleGetCurrentContext | HandleViewConfig
| HandleCreateNamespace | HandleDeleteGeneratedNamespaces.

#[global] Instance Handler_eq_dec : EqDecision Handler.
Proof. solve_decision. Defined.

Record Operation := mkOperation {
  op_name : string;
  op_description : string;
  op_params : Schema;
  op_handler : Handler
}.

(** The calls of [e.AddOperation] made by [registerOperations], in order. *)
Definition registerOperations : list Operation := [
  mkOperation "create" "Create a Kubernetes resource"
    (mkSchema "object"
       "Kubernetes resource spec (apiVersion, kind, metadata, spec, etc.)"
       (<["apiVersion" := leaf "string" "API version (e.g., v1, apps/v1)"]>
        (<["kind" := leaf "string"
                       "Resource kind (e.g., Pod, Namespace, Deployment)"]>
         (<["metadata" := leaf "object"
              "Resource metadata (name, namespace, labels, annotations)"]>
          {["spec" := leaf "object"
              "Resource spec (optional, depends on resource type)"]})))
       ["apiVersion"; "kind"; "metadata"])
    HandleCreate;
  mkOperation "wait" "Wait for a condition on a Kubernetes resource"
    (mkSchema "object" "Resource reference with condition to wait for"
       (<["apiVersion" := leaf "string" "API version (e.g., v1, apps/v1)"]>
        (<["kind" := leaf "string" "Resource kind (e.g., Pod, Deployment)"]>
         (<["metadata" := leaf "object" "Resource metadata (name, namespace)"]>
          (<["condition" := leaf "string"
               "Condition type to wait for (e.g., Ready, Available)"]>
           (<["status" := leaf "string"
                "Expected condition status (default: True)"]>
            {["timeout" := leaf "string"
                "Timeout duration (e.g., 60s, 5m, default: 60s)"]})))))
       ["apiVersion"; "kind"; "metadata"; "condition"])
    HandleWait;
  mkOperation "delete" "Delete a Kubernetes resource"
    (mkSchema "object" "Resource reference to delete"
       (<["apiVersion" := leaf "string" "API version (e.g., v1, apps/v1)"]>
        (<["kind" := leaf "string" "Resource kind (e.g., Pod, Namespace)"]>
         (<["metadata" := leaf "object" "Resource metadata (name, namespace)"]>
          {["ignoreNotFound" := leaf "boolean"
              "If true, do not fail when the resource does not exist"]})))
       ["apiVersion"; "kind"; "metadata"])
    HandleDelete;
  mkOperation "authCanI"
    "Check if a user or service account can perform an action on a resource"
    (mkSchema "object" "Permission check parameters"
       (<["verb" := leaf "string"
            "Action verb (get, list, create, delete, watch, patch, update, etc.)"]>
        (<["resource" := leaf "string"
             "Resource name (pods, deployments, configmaps, etc.)"]>
         (<["as" := leaf "string"
              "User or service account to impersonate (e.g., alice, system:serviceaccount:ns:sa-name)"]>
          (<["namespace" := leaf "string"
               "Namespace scope (optional, empty for cluster-wide check)"]>
           (<["apiGroup" := leaf "string"
                "API group (optional, empty for core API, e.g., apps, batch, rbac.authorization.k8s.io)"]>
            (<["resourceName" := leaf "string"
                 "Specific resource name to check access for (optional)"]>
             {["expect" :=
                 mkSchema "object" "Expected result for inline verification"
                   {["allowed" := leaf "boolean"
                       "Expected permission result (true for allowed, false for denied)"]}
                   []]}))))))
       ["verb"; "resource"; "as"])
    HandleAuthCanI;
  mkOperation "listContexts" "List all contexts from kubeconfig"
    (mkSchema "object" "No parameters required" ∅ [])
    HandleListContexts;
  mkOperation "getCurrentContext" "Get the current context from kubeconfig"
    (mkSchema "object" "No parameters required" ∅ [])
    HandleGetCurrentContext;
  mkOperation "viewConfig" "View kubeconfig as YAML"
    (mkSchema "object" "Configuration view options"
       {["minify" := leaf "boolean"
           "If true, only show current context (default: false)"]}
       [])
    HandleViewConfig;
  mkOperation "createNamespace"
    "Create a Kubernetes namespace with a generated suffix"
    (mkSchema "object" "Namespace creation parameters"
       {["prefix" := leaf "string"
           "Prefix for the namespace name (e.g., vm-test produces vm-test-a1b2c3)"]}
       ["prefix"])
    HandleCreateNamespace;
  mkOperation "deleteGeneratedNamespaces"
    "Delete all namespaces previously created by createNamespace"
    (mkSchema "object" "No parameters required" ∅ [])
    HandleDeleteGeneratedNamespaces
].

(** What a registration must satisfy for its schema to be usable: an
    object schema whose required parameters are all declared. *)
Definition schema_declares_required (s : Schema) : bool :=
  bool_decide (schema_Type s = "object") &&
  forallb (λ key, bool_decide (is_Some (schema_Properties s !! key)))
          (schema_Required s).

(* ===================================================================== *)
(** ** Command lines of the Helm handlers                                 *)
(* ===================================================================== *)

(** The flags [--set key=value] that [handleHelmInstall] appends when its
    loop visits the entries of the values map in the given order,
    [Sprintf_v] being [fmt.Sprintf("%v", v)]. *)
Definition set_flags (Sprintf_v : any → string) (entries : list (string * any))
  : list string :=
  concat ((λ kv, ["--set"; kv.1 +:+ "=" +:+ Sprintf_v kv.2]) <$> entries).

(** The world after a handler differs from the world before at most by log
    entries and by one run of [helm]. *)
Definition helm_only {C} (w w' : World C) : Prop :=
  client w' = client w ∧ client_state w' = client_state w ∧
  api_calls w' = api_calls w ∧
  generatedNamespaces w' = generatedNamespaces w ∧
  kubeconfigPath w' = kubeconfigPath w ∧
  (shell_calls w' = shell_calls w
   ∨ ∃ cmdArgs, shell_calls w' = shell_calls w ++ [("helm", cmdArgs)]).

(* ===================================================================== *)
(** ** Test doubles                                                       *)
(* ===================================================================== *)

(** The clients of the package's tests, as stateless [ResourceClient]s. *)
Module Doubles.

(** [createFn] returns [obj.DeepCopy()], [deleteFn] returns [nil]. *)
Definition storing_client : ResourceClient unit :=
  mkClient (λ _ obj _ c, (inl obj, c)) (λ _ _ _ _ c, (None, c)).

(** [createFn] returns [errors.New("connection refused")], [deleteFn]
    returns [errors.New("permission denied")]. *)
Definition refusing_client : ResourceClient unit :=
  mkClient (λ _ _ _ c, (inr (errors_New "connection refused"), c))
           (λ _ _ _ _ c, (Some (errors_New "permission denied"), c)).

(** [deleteFn] returns [apierrors.NewNotFound] for the name it is given. *)
Definition gone_client : ResourceClient unit :=
  mkClient (λ _ obj _ c, (inl obj, c))
           (λ _ name _ _ c,
              (Some (mkError ("namespaces " +:+ name +:+ " not found") true), c)).

(** [&Extension{client: cl, generatedNamespaces: tracked}] with nothing
    logged or called yet. *)
Definition extension (cl : option (ResourceClient unit)) (tracked : list string)
  : World unit :=
  mkWorld cl "" tracked tt (λ _ _, ("", None)) [] [] [].

(** A random source that writes the same byte everywhere. *)
Definition constant_source (b : Byte.byte) : RandRead := RandFilled (λ _, b).

(** [map[string]any{"prefix": "vm-test"}] *)
Definition vm_test_request : OperationRequest :=
  mkRequest (AObject {["prefix" := AString "vm-test"]}).

(** [args: "not a map"] *)
Definition string_request : OperationRequest := mkRequest (AString "not a map").

Definition empty_request : OperationRequest := mkRequest (AObject ∅).

(** A resource that is not found before instant [t0] and shows
    [Ready=True] from then on; the caller never cancels; the engine
    sleeps 2 between polls. *)
Definition appears_at (t0 : nat) : WaitEngine.Env :=
  WaitEngine.mkEnv
    (λ t, if t <? t0
          then inr (mkError "pods web-server not found" true)
          else inl [WaitEngine.mkCondition "Ready" "True"])
    (λ _, false) 2.

(** Wait for [Ready] on a pod, no status given, with the given timeout. *)
Definition ready_within (timeout : nat) : WaitEngine.WaitSpec :=
  WaitEngine.mkWaitSpec "v1" "Pod" "web-server" "test-namespace" "Ready"
    None (Some timeout).

(** A permission check that denies everything. *)
Definition deny_all (q : PermissionProbe.PermissionQuery) : bool + GoError :=
  inl false.

(** [verb: get, resource: pods, as: alice, expect: {allowed: true}] *)
Definition alice_expects_allowed : OperationRequest :=
  mkRequest (AObject
    (<["verb" := AString "get"]>
     (<["resource" := AString "pods"]>
      (<["as" := AString "alice"]>
       {["expect" := AObject {["allowed" := ABool true]}]})))).

(** [map[string]any{"other": "value"}] *)
Definition other_request : OperationRequest :=
  mkRequest (AObject {["other" := AString "value"]}).

(** An extension without client whose [helm] binary answers as given. *)
Definition with_helm (kubeconfig : string)
    (helm : list string → string * option GoError) : World unit :=
  mkWorld None kubeconfig [] tt (λ _ cmdArgs, helm cmdArgs) [] [] [].

(** [helm] as it answers for a release that does not exist. *)
Definition helm_release_missing (cmdArgs : list string) : string * option GoError :=
  ("Error: uninstall: Release not loaded: test-release-nonexistent: release: not found",
   Some (errors_New "exit status 1")).

(** [helm] without anything to report. *)
Definition helm_silent (cmdArgs : list string) : string * option GoError :=
  ("", None).

(** [map[string]any{"name": "test-release-nonexistent"}] *)
Definition uninstall_request : OperationRequest :=
  mkRequest (AObject {["name" := AString "test-release-nonexistent"]}).

(** [map[string]any{"chart": "oci://registry.io/chart/nginx", "name":
    "test-release"}] *)
Definition install_request : OperationRequest :=
  mkRequest (AObject
    (<["chart" := AString "oci://registry.io/chart/nginx"]>
     {["name" := AString "test-release"]})).

(** [map[string]any{"allNamespaces": true, "namespace": "default"}] *)
Definition list_all_request : OperationRequest :=
  mkRequest (AObject
    (<["allNamespaces" := ABool true]> {["namespace" := AString "default"]})).

(** [filepath.Join] on elements that need no cleaning beyond a separator
    written twice: a slash between the elements, a leading slash of a later
    element dropped. *)
Definition join_slash (elems : list string) : string :=
  match elems with
  | [] => ""
  | first :: rest =>
    String.concat "/"
      (first :: ((λ e, if String.prefix "/" e then drop_first e else e) <$> rest))
  end.

(** A host with the home directory [/home/dev] and one kubeconfig file, at
    the default place; every client can be built. *)
Definition home_host : Host unit unit unit :=
  mkHost (inl "/home/dev") join_slash
         (λ path, negb (String.eqb path "/home/dev/.kube/config"))
         (λ _ _, inl tt) (λ _, inl tt) (λ _, inl tt).

(** A host without a home directory. *)
Definition homeless_host : Host unit unit unit :=
  mkHost (inr (errors_New "$HOME is not defined")) join_slash
         (λ _, true) (λ _ _, inl tt) (λ _, inl tt) (λ _, inl tt).

(** The adapter behind [home_host], answering like [storing_client]. *)
Definition home_adapter (a : dynamicClientAdapter unit unit) : ResourceClient unit :=
  storing_client.

End Doubles.

(* ===================================================================== *)
(** * Properties                                                          *)
(* ===================================================================== *)

(** ** generateID *)

Lemma symbol_index_lt (b : Byte.byte) : symbol_index b < 36.
Proof.
  unfold symbol_index. change (String.length alphanumeric) with 36.
  apply Nat.mod_upper_bound. discriminate.
Qed.

(** The index computed from a byte never leaves [alphanumeric]. *)
Lemma symbol_at_total (b : Byte.byte) : symbol_at b = Some (symbol b).
Proof. destruct b; reflexivity. Qed.

Lemma symbol_lower_alnum (b : Byte.byte) : is_lower_alnum (symbol b) = true.
Proof. destruct b; reflexivity. Qed.

Lemma all_bytes_complete (b : Byte.byte) : b ∈ all_bytes.
Proof.
  apply list_elem_of_In.
  destruct b; vm_compute; repeat (first [left; reflexivity | right]).
Qed.

Lemma all_bytes_NoDup : NoDup all_bytes.
Proof.
  apply (NoDup_fmap_1 Byte.to_nat).
  assert (Byte.to_nat <$> all_bytes = seq 0 256) as -> by (vm_compute; reflexivity).
  apply NoDup_seq.
Qed.

Lemma string_of_list_ascii_length (l : list ascii) :
  String.length (string_of_list_ascii l) = length l.
Proof. induction l as [|c l IH]; simpl; [reflexivity | by rewrite IH]. Qed.

Lemma generateID_length (n : nat) (fill : nat → Byte.byte) (id : string) :
  generateID n (RandFilled fill) = inl id → String.length id = n.
Proof.
  intros [= <-].
  rewrite string_of_list_ascii_length, length_map. apply length_seq.
Qed.

Lemma generateID_alphabet (n : nat) (fill : nat → Byte.byte) (id : string) :
  generateID n (RandFilled fill) = inl id →
  Forall (λ c, is_lower_alnum c = true) (list_ascii_of_string id).
Proof.
  intros [= <-]. rewrite list_ascii_of_string_of_list_ascii.
  apply Forall_fmap, Forall_forall. intros i _. apply symbol_lower_alnum.
Qed.

Lemma generateID_inv (n : nat) (r : RandRead) (id : string) :
  generateID n r = inl id → ∃ fill, r = RandFilled fill.
Proof. destruct r; [eauto | discriminate]. Qed.

Lemma generateID_generated_name (prefix : string) (r : RandRead) (id : string) :
  generateID 8 r = inl id → generated_name prefix (prefix +:+ "-" +:+ id).
Proof.
  intros H. destruct (generateID_inv _ _ _ H) as [fill ->].
  exists id. eauto using generateID_length, generateID_alphabet.
Qed.

Lemma get_lookup (s : string) : ∀ i,
  String.get i s = list_ascii_of_string s !! i.
Proof.
  induction s as [|c s IH]; intros [|i]; simpl; try done.
Qed.

Lemma generateID_get (n : nat) (fill : nat → Byte.byte) (id : string) :
  generateID n (RandFilled fill) = inl id →
  ∀ i, String.get i id = if decide (i < n) then Some (symbol (fill i)) else None.
Proof.
  intros [= <-] i. rewrite get_lookup, list_ascii_of_string_of_list_ascii.
  change (map ?f ?l) with (f <$> l). rewrite list_lookup_fmap.
  case_decide as Hi.
  - by rewrite lookup_seq_lt.
  - by rewrite lookup_seq_ge by lia.
Qed.

(** C5 as stated fails: the symbols do not all get the same number of byte
    values; [a] is hit by eight of them, [e] by seven. *)
Lemma generateID_modulo_bias :
  ¬ (∀ j k, j < 36 → k < 36 → preimage_count j = preimage_count k).
Proof.
  intros H. specialize (H 0 4 ltac:(lia) ltac:(lia)). vm_compute in H. discriminate.
Qed.

(** C5, amended: for every filling of the buffer [generateID 8] returns an
    id of eight characters, the character at each position being
    [alphanumeric[b mod 36]] for the byte [b] the random source delivered at
    that position; each of the 256 byte values is counted once; the symbols
    at indices 0 to 3 (a, b, c, d) are each the image of eight byte values
    and the other thirty-two symbols of seven, and no byte value falls
    outside the alphabet. *)
Theorem generateID_preimage_counts :
  (∀ fill, ∃ id,
     generateID 8 (RandFilled fill) = inl id ∧ String.length id = 8 ∧
     ∀ i, String.get i id
          = if decide (i < 8)
            then String.get (Byte.to_nat (fill i) `mod` 36) alphanumeric
            else None) ∧
  (∀ b, b ∈ all_bytes) ∧ NoDup all_bytes ∧ length all_bytes = 256 ∧
  (∀ b, String.get (Byte.to_nat b `mod` 36) alphanumeric = Some (symbol b)) ∧
  ∀ k, preimage_count k = if k <? 4 then 8 else if k <? 36 then 7 else 0.
Proof.
  split.
  { intros fill.
    destruct (generateID 8 (RandFilled fill)) as [id|e] eqn:E; [|discriminate].
    exists id. split; [done|]. split; [exact (generateID_length _ _ _ E)|].
    intros i. rewrite (generateID_get _ _ _ E i).
    case_decide; [|done]. symmetry. apply symbol_at_total. }
  split; [apply all_bytes_complete|].
  split; [apply all_bytes_NoDup|].
  split; [reflexivity|].
  split; [apply symbol_at_total|].
  intros k. destruct (decide (k < 36)) as [Hk|Hk].
  - do 36 (destruct k as [|k]; [vm_compute; reflexivity|]). lia.
  - replace (k <? 4) with false by (symmetry; apply Nat.ltb_ge; lia).
    replace (k <? 36) with false by (symmetry; apply Nat.ltb_ge; lia).
    unfold preimage_count.
    generalize all_bytes as l.
    induction l as [|b l IH]; [reflexivity|].
    rewrite filter_cons_False; [exact IH|].
    pose proof (symbol_index_lt b). lia.
Qed.

(** ** handleCreateNamespace *)

Ltac unfold_m :=
  unfold mbind, M_bind, ret, mret, M_ret, get_world, LogInfo, LogError,
    client_Create, client_Delete, track_namespace, take_namespaces,
    run_command in *.

Ltac failed_branch := intros [= <- <-]; simpl in *; try discriminate.

Lemma GetName_manifest (name : string) : GetName (namespace_manifest name) = name.
Proof. reflexivity. Qed.

(** C1: with a client that returns what it stored, and a non-empty prefix,
    [createNamespace] succeeds exactly when the random source delivers and
    the client's create call succeeds; a successful call has submitted the
    manifest named [prefix-id], with [id] eight characters of a-z0-9, its
    output [namespace] is that name, and exactly that name is appended to
    the tracked list, which grows by one. *)
Theorem createNamespace_success {C} (w : World C) cl rnd req args prefix :
  client w = Some cl → returns_submitted_name cl →
  Args req = AObject args → args !! "prefix" = Some (AString prefix) →
  prefix ≠ "" →
  let '(r, w') := handleCreateNamespace rnd req w in
  (Success r = true ↔
     ∃ id result c',
       generateID 8 rnd = inl id ∧
       Create cl namespaceGVR (namespace_manifest (prefix +:+ "-" +:+ id)) ""
              (client_state w) = (inl result, c')) ∧
  (Success r = true →
     ∃ name,
       generated_name prefix name ∧
       Outputs r !! "namespace" = Some name ∧
       generatedNamespaces w' = generatedNamespaces w ++ [name] ∧
       length (generatedNamespaces w') = S (length (generatedNamespaces w)) ∧
       ∃ result,
         api_calls w' = api_calls w
                        ++ [EvCreate namespaceGVR (namespace_manifest name) ""
                                     (inl result)]).
Proof.
  intros Hcl Hsame Hargs Hprefix Hne.
  unfold handleCreateNamespace. unfold_m. rewrite Hcl, Hargs.
  unfold get_string. rewrite Hprefix.
  destruct (decide (prefix = "")) as [|_]; [done|].
  destruct (generateID 8 rnd) as [id|err] eqn:Hid.
  2:{ simpl. split; [|done]. split; [done|]. by intros (? & ? & ? & ? & _). }
  simpl.
  destruct (Create cl _ _ _ _) as [[result|err] c'] eqn:Hcreate; simpl.
  - split; [split; [by eexists _, _, _ | done]|]. intros _.
    pose proof (Hsame _ _ _ _ _ _ Hcreate) as Hname.
    rewrite GetName_manifest in Hname. rewrite Hname.
    exists (prefix +:+ "-" +:+ id).
    split; [exact (generateID_generated_name prefix _ _ Hid)|].
    split; [by rewrite lookup_singleton_eq|].
    split; [done|]. split; [rewrite length_app; simpl; lia|].
    by exists result.
  - split; [|done]. split; [done|].
    intros (id' & result & c'' & [= <-] & Hc). congruence.
Qed.

Lemma createNamespace_success_witness :
  let '(r, w') :=
    handleCreateNamespace (Doubles.constant_source Byte.x25)
      Doubles.vm_test_request
      (Doubles.extension (Some Doubles.storing_client) ["vm-test-abc123"]) in
  Success r = true ∧
  ∃ name,
    generated_name "vm-test" name ∧
    Outputs r !! "namespace" = Some name ∧
    generatedNamespaces w' = ["vm-test-abc123"] ++ [name] ∧
    length (generatedNamespaces w') = 2.
Proof.
  pose proof (createNamespace_success
                (Doubles.extension (Some Doubles.storing_client) ["vm-test-abc123"])
                Doubles.storing_client (Doubles.constant_source Byte.x25)
                Doubles.vm_test_request {["prefix" := AString "vm-test"]}
                "vm-test" eq_refl) as H.
  specialize (H ltac:(by intros ? ? ? ? ? ? [= <- _]) eq_refl eq_refl
                ltac:(discriminate)).
  destruct (handleCreateNamespace _ _ _) as [r w'].
  destruct H as [Hiff Hok].
  assert (Hr : Success r = true).
  { apply Hiff. by eexists _, _, _. }
  split; [exact Hr|].
  destruct (Hok Hr) as (name & Hgen & Hout & Htracked & Hlen & _).
  by exists name.
Defined.

(** C3: when the client's create call issued by [createNamespace] fails,
    the result is a failure that carries the client's error, and the
    tracked list is what it was before the call; more generally no failed
    [createNamespace] tracks anything. *)
Theorem createNamespace_failure_untracked {C} (w : World C) rnd req r w' evs :
  handleCreateNamespace rnd req w = (r, w') →
  api_calls w' = api_calls w ++ evs →
  (Success r = false → generatedNamespaces w' = generatedNamespaces w) ∧
  ∀ gvr obj ns err,
    EvCreate gvr obj ns (inr err) ∈ evs →
    Success r = false ∧
    Error r = "failed to create namespace: " +:+ err_Error err ∧
    generatedNamespaces w' = generatedNamespaces w.
Proof.
  unfold handleCreateNamespace. unfold_m.
  assert (Hnil : ∀ w0 : World C, api_calls w0 = api_calls w0 ++ evs → evs = []).
  { intros w0 H. apply (app_inv_head (api_calls w0)). by rewrite app_nil_r. }
  assert (Hnone : ∀ r0, (r0, w) = (r, w') → Success r0 = false →
            api_calls w' = api_calls w ++ evs →
            (Success r = false → generatedNamespaces w' = generatedNamespaces w) ∧
            ∀ gvr obj ns err, EvCreate gvr obj ns (inr err) ∈ evs →
              Success r = false ∧
              Error r = "failed to create namespace: " +:+ err_Error err ∧
              generatedNamespaces w' = generatedNamespaces w).
  { intros r0 [= <- <-] Hr0 Hcalls. split; [done|].
    intros gvr obj ns err Hin. rewrite (Hnil _ Hcalls) in Hin.
    by apply not_elem_of_nil in Hin. }
  destruct (client w) as [cl|] eqn:Hcl; [|intros H; by apply (Hnone _ H)].
  destruct (Args req) as [| | | | |args] eqn:Hargs;
    try (intros H; by apply (Hnone _ H)).
  destruct (decide (get_string args "prefix" = "")) as [|Hp];
    [intros H; by apply (Hnone _ H)|].
  destruct (generateID 8 rnd) as [id|err] eqn:Hid;
    [|intros H; by apply (Hnone _ H)].
  simpl.
  destruct (Create cl _ _ _ _) as [[result|err] c'] eqn:Hcreate; simpl.
  - intros [= <- <-]. simpl. intros Hcalls%app_inv_head. subst evs.
    split; [discriminate|].
    intros gvr obj ns err Hin. apply list_elem_of_singleton in Hin. discriminate.
  - intros [= <- <-]. simpl. intros Hcalls%app_inv_head. subst evs.
    split; [done|].
    intros gvr obj ns err0 Hin. apply list_elem_of_singleton in Hin.
    by injection Hin as _ _ _ ->.
Qed.

Lemma createNamespace_failure_untracked_witness :
  let w := Doubles.extension (Some Doubles.refusing_client) [] in
  let out := handleCreateNamespace (Doubles.constant_source Byte.x25)
               Doubles.vm_test_request w in
  EvCreate namespaceGVR (namespace_manifest "vm-test-bbbbbbbb") ""
    (inr (errors_New "connection refused")) ∈ api_calls out.2 ∧
  Success out.1 = false ∧
  Error out.1 = "failed to create namespace: connection refused" ∧
  generatedNamespaces out.2 = [].
Proof.
  intros w out.
  pose proof (createNamespace_failure_untracked w
                (Doubles.constant_source Byte.x25) Doubles.vm_test_request
                out.1 out.2 (api_calls out.2)
                ltac:(vm_compute; reflexivity) ltac:(vm_compute; reflexivity))
    as [_ H].
  assert (Hin : EvCreate namespaceGVR (namespace_manifest "vm-test-bbbbbbbb") ""
                  (inr (errors_New "connection refused")) ∈ api_calls out.2).
  { vm_compute. apply list_elem_of_here. }
  split; [exact Hin|]. exact (H _ _ _ _ Hin).
Defined.

(** ** Argument guards *)

(** C6 as stated fails for [createNamespace]: the client check comes first,
    so on an extension without a client a non-mapping argument is answered
    with the client error. *)
Lemma createNamespace_client_guard_first :
  let '(r, _) :=
    handleCreateNamespace (Doubles.constant_source Byte.x25)
      Doubles.string_request (Doubles.extension None []) in
  Success r = false ∧
  Error r = "kubernetes client not initialized" ∧
  Error r ≠ "args must be an object".
Proof. vm_compute. repeat split. discriminate. Qed.

(** C6, amended: arguments that are not a string-keyed mapping make
    [helmInstall], [helmList] and [helmUninstall] fail with "args must be
    an object", and so does [createNamespace] on an extension whose client
    is initialized (without a client it fails with the client error
    instead); in every one of these cases the world is left as it was: no
    client call and no shell call is made. *)
Theorem non_mapping_args_rejected {C} (w : World C) Sprintf_v json_Unmarshal
    rnd req :
  (∀ args, Args req ≠ AObject args) →
  let rejected := sdk_Failure (errors_New "args must be an object") in
  Success rejected = false ∧ Error rejected = "args must be an object" ∧
  handleHelmInstall Sprintf_v req w = (rejected, w) ∧
  handleHelmList json_Unmarshal req w = (rejected, w) ∧
  handleHelmUninstall req w = (rejected, w) ∧
  handleCreateNamespace rnd req w =
    (match client w with
     | Some _ => rejected
     | None => sdk_Failure (errors_New "kubernetes client not initialized")
     end, w).
Proof.
  intros Hargs.
  unfold handleHelmInstall, handleHelmList, handleHelmUninstall,
    handleCreateNamespace. unfold_m.
  destruct (Args req) as [| | | | |args] eqn:E;
    try (by destruct (client w));
    try (repeat split; by destruct (client w)).
  by destruct (Hargs args).
Qed.

Lemma non_mapping_args_rejected_witness :
  let w := Doubles.extension (Some Doubles.storing_client) ["vm-test-abc123"] in
  let rejected := sdk_Failure (errors_New "args must be an object") in
  Success rejected = false ∧ Error rejected = "args must be an object" ∧
  handleHelmInstall (λ _, "") Doubles.string_request w = (rejected, w) ∧
  handleHelmList (λ _, inl []) Doubles.string_request w = (rejected, w) ∧
  handleHelmUninstall Doubles.string_request w = (rejected, w) ∧
  handleCreateNamespace (Doubles.constant_source Byte.x25)
    Doubles.string_request w = (rejected, w).
Proof.
  intros w.
  apply (non_mapping_args_rejected w (λ _, "") (λ _, inl [])
           (Doubles.constant_source Byte.x25) Doubles.string_request).
  intros args. simpl. discriminate.
Defined.

(** ** handleDeleteGeneratedNamespaces *)

Lemma deleteOpts_foreground :
  deleteOpts = mkDeleteOptions (Some DeletePropagationForeground).
Proof. reflexivity. Qed.

Section DeleteLoop.
Context {C : Type}.
Implicit Types (w : World C) (cl : ResourceClient C).

Lemma set_generatedNamespaces_same w :
  set_generatedNamespaces (generatedNamespaces w) w = w.
Proof. by destruct w. Qed.

(** One iteration issues one delete call and appends at most one line. *)
Lemma delete_one_spec cl ns errs w :
  ∃ answer,
    let '(errs', w') := delete_one cl ns errs w in
    api_calls w' = api_calls w ++ [delete_event ns answer] ∧
    errs' = errs ++ delete_failures [delete_event ns answer] ∧
    generatedNamespaces w' = generatedNamespaces w ∧
    client w' = client w.
Proof.
  unfold delete_one. unfold_m.
  destruct (Delete cl namespaceGVR ns "" deleteOpts (client_state w))
    as [[err|] c'] eqn:E.
  - exists (Some err). unfold delete_failures. simpl.
    destruct (err_IsNotFound err); simpl; rewrite ?app_nil_r; done.
  - exists None. simpl. rewrite app_nil_r. done.
Qed.

Lemma delete_failures_app evs1 evs2 :
  delete_failures (evs1 ++ evs2) = delete_failures evs1 ++ delete_failures evs2.
Proof. apply omap_app. Qed.

(** The loop issues the delete calls of the snapshot, in order, and
    collects the lines of those that failed. *)
Lemma delete_loop_spec cl namespaces : ∀ errs w,
  ∃ answers,
    length answers = length namespaces ∧
    let evs := zip_with delete_event namespaces answers in
    let '(errs', w') := delete_loop cl namespaces errs w in
    api_calls w' = api_calls w ++ evs ∧
    errs' = errs ++ delete_failures evs ∧
    generatedNamespaces w' = generatedNamespaces w ∧
    client w' = client w.
Proof.
  induction namespaces as [|ns rest IH]; intros errs w.
  - exists []. simpl. rewrite !app_nil_r. done.
  - cbn [delete_loop]. unfold mbind at 1, M_bind at 1.
    destruct (delete_one_spec cl ns errs w) as [answer H1].
    destruct (delete_one cl ns errs w) as [errs1 w1].
    destruct H1 as (Hc1 & He1 & Hg1 & Hcl1).
    destruct (IH errs1 w1) as (answers & Hlen & H2).
    exists (answer :: answers). split; [simpl; by rewrite Hlen|].
    cbv zeta in H2 |- *. cbn [zip_with].
    destruct (delete_loop cl rest errs1 w1) as [errs' w'].
    destruct H2 as (Hc2 & He2 & Hg2 & Hcl2).
    rewrite Hc2, Hc1, He2, He1, Hg2, Hg1, Hcl2, Hcl1.
    change (delete_event ns answer :: zip_with delete_event rest answers)
      with ([delete_event ns answer] ++ zip_with delete_event rest answers).
    rewrite delete_failures_app, !app_assoc. done.
Qed.

(** One iteration makes the client's delete call for [ns] and keeps its
    answer. *)
Lemma delete_one_run cl ns errs w :
  let '(answer, c') :=
    Delete cl namespaceGVR ns "" deleteOpts (client_state w) in
  let '(errs', w') := delete_one cl ns errs w in
  api_calls w' = api_calls w ++ [delete_event ns answer] ∧
  client_state w' = c' ∧
  errs' = errs ++ delete_failures [delete_event ns answer] ∧
  generatedNamespaces w' = generatedNamespaces w ∧
  client w' = client w.
Proof.
  unfold delete_one. unfold_m.
  destruct (Delete cl namespaceGVR ns "" deleteOpts (client_state w))
    as [[err|] c'] eqn:E.
  - unfold delete_failures. simpl.
    destruct (err_IsNotFound err); simpl; rewrite ?app_nil_r; done.
  - simpl. rewrite app_nil_r. done.
Qed.

(** The loop makes the client's delete calls for the snapshot, in order,
    each on the client state the previous one left, and collects the lines
    of those the client refused. *)
Lemma delete_loop_run cl namespaces : ∀ errs w,
  let '(answers, c') := delete_answers cl namespaces (client_state w) in
  let evs := zip_with delete_event namespaces answers in
  let '(errs', w') := delete_loop cl namespaces errs w in
  length answers = length namespaces ∧
  api_calls w' = api_calls w ++ evs ∧
  client_state w' = c' ∧
  errs' = errs ++ delete_failures evs ∧
  generatedNamespaces w' = generatedNamespaces w ∧
  client w' = client w.
Proof.
  induction namespaces as [|ns rest IH]; intros errs w.
  - simpl. rewrite !app_nil_r. done.
  - cbn [delete_loop delete_answers]. unfold mbind at 1, M_bind at 1.
    pose proof (delete_one_run cl ns errs w) as H1.
    change (mkDeleteOptions (Some DeletePropagationForeground)) with deleteOpts.
    destruct (Delete cl namespaceGVR ns "" deleteOpts (client_state w))
      as [answer c1].
    destruct (delete_one cl ns errs w) as [errs1 w1].
    destruct H1 as (Hc1 & Hs1 & He1 & Hg1 & Hcl1).
    pose proof (IH errs1 w1) as H2. rewrite Hs1 in H2.
    destruct (delete_answers cl rest c1) as [answers c2].
    cbv zeta in H2 |- *. cbn [zip_with].
    destruct (delete_loop cl rest errs1 w1) as [errs' w'].
    destruct H2 as (Hlen & Hc2 & Hs2 & He2 & Hg2 & Hcl2).
    rewrite Hc2, Hc1, He2, He1, Hg2, Hg1, Hcl2, Hcl1.
    change (delete_event ns answer :: zip_with delete_event rest answers)
      with ([delete_event ns answer] ++ zip_with delete_event rest answers).
    rewrite delete_failures_app, !app_assoc. simpl. by rewrite Hlen.
Qed.

(** A bulk delete on a non-empty tracked list, by the client's answers. *)
Lemma handleDelete_run w cl req :
  client w = Some cl → generatedNamespaces w ≠ [] →
  let '(answers, c') :=
    delete_answers cl (generatedNamespaces w) (client_state w) in
  let evs := zip_with delete_event (generatedNamespaces w) answers in
  let '(r, w') := handleDeleteGeneratedNamespaces req w in
  length answers = length (generatedNamespaces w) ∧
  api_calls w' = api_calls w ++ evs ∧
  client_state w' = c' ∧
  generatedNamespaces w' = [] ∧
  r = delete_result (generatedNamespaces w) (delete_failures evs).
Proof.
  intros Hcl Hne. unfold handleDeleteGeneratedNamespaces. unfold_m. rewrite Hcl.
  case_decide as Hz; [by apply nil_length_inv in Hz|].
  match goal with |- context [delete_loop cl ?l ?e ?w0] =>
    pose proof (delete_loop_run cl l e w0) as H;
    change (client_state w0) with (client_state w) in H end.
  destruct (delete_answers cl (generatedNamespaces w) (client_state w))
    as [answers c'].
  cbv zeta in H |- *.
  match goal with |- context [delete_loop cl ?l ?e ?w0] =>
    destruct (delete_loop cl l e w0) as [errs' w'] end.
  simpl in *. destruct H as (Hlen & Hc & Hs & He & Hg & _).
  rewrite Hc, Hs, He, Hg. done.
Qed.

Lemma deleted_names_zip namespaces answers :
  length answers = length namespaces →
  deleted_names (zip_with delete_event namespaces answers) = namespaces.
Proof.
  revert answers. induction namespaces as [|ns rest IH]; intros [|a answers];
    simpl; try done.
  intros [= H]. unfold deleted_names in *. simpl. by rewrite IH.
Qed.

Lemma deletes_performed_cons ev evs :
  deletes_performed (ev :: evs) =
    (if delete_performed ev then 1 else 0) + deletes_performed evs.
Proof.
  unfold deletes_performed. rewrite filter_cons.
  destruct (delete_performed ev); by case_decide.
Qed.

Lemma deletes_already_gone_cons ev evs :
  deletes_already_gone (ev :: evs) =
    (if delete_already_gone ev then 1 else 0) + deletes_already_gone evs.
Proof.
  unfold deletes_already_gone. rewrite filter_cons.
  destruct (delete_already_gone ev); by case_decide.
Qed.

Lemma delete_counts namespaces answers :
  length answers = length namespaces →
  delete_failures (zip_with delete_event namespaces answers) = [] →
  length namespaces =
    deletes_performed (zip_with delete_event namespaces answers)
    + deletes_already_gone (zip_with delete_event namespaces answers).
Proof.
  revert answers. induction namespaces as [|ns rest IH]; intros [|a answers];
    try done.
  intros [= Hlen]. cbn [zip_with].
  rewrite deletes_performed_cons, deletes_already_gone_cons.
  change (delete_event ns a :: zip_with delete_event rest answers)
    with ([delete_event ns a] ++ zip_with delete_event rest answers).
  rewrite delete_failures_app. intros [H1 H2]%app_eq_nil.
  pose proof (IH answers Hlen H2) as IH'. cbn [length].
  destruct a as [err|]; simpl; [|lia].
  unfold delete_failures in H1. simpl in H1.
  destruct (err_IsNotFound err); [lia | discriminate].
Qed.

Lemma delete_failures_elem evs line :
  line ∈ delete_failures evs ↔
  ∃ gvr name ns opts err,
    EvDelete gvr name ns opts (Some err) ∈ evs ∧ err_IsNotFound err = false ∧
    line = name +:+ ": " +:+ err_Error err.
Proof.
  unfold delete_failures. rewrite list_elem_of_omap. split.
  - intros (ev & Hin & Hev). destruct ev as [|gvr name ns opts [err|]]; try done.
    destruct (err_IsNotFound err) eqn:E; [done|]. injection Hev as <-.
    by exists gvr, name, ns, opts, err.
  - intros (gvr & name & ns & opts & err & Hin & Hnf & ->).
    eexists. split; [exact Hin|]. simpl. by rewrite Hnf.
Qed.

(** What a bulk delete with an initialized client does. *)
Lemma handleDelete_spec w cl req :
  client w = Some cl →
  ∃ answers,
    length answers = length (generatedNamespaces w) ∧
    let evs := zip_with delete_event (generatedNamespaces w) answers in
    let '(r, w') := handleDeleteGeneratedNamespaces req w in
    api_calls w' = api_calls w ++ evs ∧
    generatedNamespaces w' = [] ∧
    client w' = client w ∧
    r = if decide (length (generatedNamespaces w) = 0)
        then sdk_Success "No generated namespaces to delete"
        else delete_result (generatedNamespaces w) (delete_failures evs).
Proof.
  intros Hcl. unfold handleDeleteGeneratedNamespaces. unfold_m. rewrite Hcl.
  destruct (decide (length (generatedNamespaces w) = 0)) as [Hz|Hnz].
  - exists []. destruct (generatedNamespaces w); [|done]. simpl.
    rewrite app_nil_r. done.
  - match goal with |- context [delete_loop cl ?l ?e ?w0] =>
      destruct (delete_loop_spec cl l e w0) as (answers & Hlen & H);
      destruct (delete_loop cl l e w0) as [errs' w'] end.
    exists answers. split; [exact Hlen|]. simpl in *.
    destruct H as (Hc & He & Hg & Hcl'). rewrite Hc, He, Hg, Hcl'. done.
Qed.
(** Nothing tracked: the handler returns at once and changes nothing. *)
Lemma handleDelete_nothing_tracked w cl req :
  client w = Some cl → generatedNamespaces w = [] →
  handleDeleteGeneratedNamespaces req w
    = (sdk_Success "No generated namespaces to delete", w).
Proof.
  intros Hcl Hnil.
  unfold handleDeleteGeneratedNamespaces. unfold_m. rewrite Hcl, Hnil. simpl.
  rewrite <- Hnil at 1. by rewrite set_generatedNamespaces_same.
Qed.
End DeleteLoop.

Section DeleteTheorems.
Context {C : Type}.
Implicit Types (w : World C) (cl : ResourceClient C).

Lemma delete_result_failed namespaces errs :
  Success (delete_result namespaces errs) = false ↔ errs ≠ [].
Proof.
  unfold delete_result. case_decide as H; destruct errs as [|e errs];
    simpl in *; split; (done || lia).
Qed.

Lemma delete_failures_nonempty namespaces answers :
  delete_failures (zip_with delete_event namespaces answers) ≠ [] ↔
  ∃ ns err, delete_event ns (Some err) ∈ zip_with delete_event namespaces answers
            ∧ err_IsNotFound err = false.
Proof.
  split.
  - intros H.
    destruct (delete_failures (zip_with delete_event namespaces answers))
      as [|line lines] eqn:E; [done|].
    assert (Hin : line ∈ delete_failures (zip_with delete_event namespaces answers))
      by (rewrite E; apply list_elem_of_here).
    apply delete_failures_elem in Hin
      as (gvr & name & ns & opts & err & Hin & Hnf & _).
    destruct (elem_of_zip_with _ _ _ _ Hin) as (x & y & Heq & _ & _).
    unfold delete_event in Heq. injection Heq as ? ? ? ? ?; subst.
    exists x, err. split; [exact Hin | exact Hnf].
  - intros (ns & err & Hin & Hnf) E.
    assert (Hline : ns +:+ ": " +:+ err_Error err
                    ∈ delete_failures (zip_with delete_event namespaces answers)).
    { apply delete_failures_elem. by eexists _, _, _, _, _. }
    rewrite E in Hline. by apply not_elem_of_nil in Hline.
Qed.

(** C4: on a non-empty snapshot the bulk delete makes exactly one
    foreground-propagation delete call per tracked namespace, in order, and
    the answers it works with are the client's own, each call made on the
    client state the previous one left; it fails iff the client answered
    one of the calls with an error that is not a not-found; the failure text
    is "failed to delete namespaces: " followed by the lines
    [namespace: error] of all such calls joined with "; ", so every failed
    namespace is named; and the tracked list is empty afterwards in either
    case. *)
Theorem deleteGeneratedNamespaces_collects_errors w cl req :
  client w = Some cl → generatedNamespaces w ≠ [] →
  let '(answers, c') :=
    delete_answers cl (generatedNamespaces w) (client_state w) in
  let evs := zip_with delete_event (generatedNamespaces w) answers in
  let '(r, w') := handleDeleteGeneratedNamespaces req w in
  length answers = length (generatedNamespaces w) ∧
  api_calls w' = api_calls w ++ evs ∧
  client_state w' = c' ∧
  deleted_names evs = generatedNamespaces w ∧
  (Success r = false ↔
     ∃ ns err, delete_event ns (Some err) ∈ evs ∧ err_IsNotFound err = false) ∧
  (Success r = false →
     Error r = "failed to delete namespaces: "
               +:+ strings_Join (delete_failures evs) "; ") ∧
  (∀ ns err, delete_event ns (Some err) ∈ evs → err_IsNotFound err = false →
     ns +:+ ": " +:+ err_Error err ∈ delete_failures evs) ∧
  generatedNamespaces w' = [].
Proof.
  intros Hcl Hne.
  pose proof (handleDelete_run w cl req Hcl Hne) as H.
  destruct (delete_answers cl (generatedNamespaces w) (client_state w))
    as [answers c'].
  cbv zeta in H |- *.
  destruct (handleDeleteGeneratedNamespaces req w) as [r w'].
  destruct H as (Hlen & Hcalls & Hstate & Htracked & Hr).
  split; [exact Hlen|]. split; [exact Hcalls|]. split; [exact Hstate|].
  split; [by apply deleted_names_zip|].
  split; [rewrite Hr, delete_result_failed; apply delete_failures_nonempty|].
  split.
  { rewrite Hr. intros Hf. apply delete_result_failed in Hf.
    unfold delete_result. case_decide as Hlen'; [reflexivity|].
    destruct (delete_failures _); [done | simpl in Hlen'; lia]. }
  split; [|exact Htracked].
  intros ns err Hin Hnf. apply delete_failures_elem.
  by eexists _, _, _, _, _.
Qed.

(** C9: with an initialized client and nothing tracked, the bulk delete
    succeeds with the message "No generated namespaces to delete" and
    leaves the world as it was; in particular no delete call is made. *)
Theorem deleteGeneratedNamespaces_nothing_tracked w cl req :
  client w = Some cl → generatedNamespaces w = [] →
  handleDeleteGeneratedNamespaces req w
    = (sdk_Success "No generated namespaces to delete", w) ∧
  Success (sdk_Success "No generated namespaces to delete") = true ∧
  api_calls (handleDeleteGeneratedNamespaces req w).2 = api_calls w.
Proof.
  intros Hcl Hnil. by rewrite (handleDelete_nothing_tracked w cl req Hcl Hnil).
Qed.

(** C10: a bulk delete that succeeds on a non-empty snapshot reports
    "Deleted N generated namespace(s)" with N the length of the snapshot;
    N is the number of deletes the client carried out plus the number it
    answered with not-found, so N exceeds the number of deletions
    performed as soon as one namespace was already gone (as for the
    [gone_client] double, where N is 1 and nothing was deleted). *)
Theorem deleteGeneratedNamespaces_reports_snapshot_size w cl req :
  client w = Some cl → generatedNamespaces w ≠ [] →
  Success (handleDeleteGeneratedNamespaces req w).1 = true →
  (∃ answers,
     length answers = length (generatedNamespaces w) ∧
     let evs := zip_with delete_event (generatedNamespaces w) answers in
     let '(r, w') := handleDeleteGeneratedNamespaces req w in
     api_calls w' = api_calls w ++ evs ∧
     Message r = "Deleted " +:+ Sprintf_d (length (generatedNamespaces w))
                 +:+ " generated namespace(s)" ∧
     length (generatedNamespaces w)
       = deletes_performed evs + deletes_already_gone evs) ∧
  (let '(r, w') :=
     handleDeleteGeneratedNamespaces Doubles.empty_request
       (Doubles.extension (Some Doubles.gone_client) ["vm-test-gone"]) in
   Success r = true ∧ Message r = "Deleted 1 generated namespace(s)" ∧
   deletes_performed (api_calls w') = 0).
Proof.
  intros Hcl Hne Hok. split; [|vm_compute; done].
  destruct (handleDelete_spec w cl req Hcl) as (answers & Hlen & H).
  exists answers. split; [exact Hlen|]. cbv zeta in H |- *.
  destruct (handleDeleteGeneratedNamespaces req w) as [r w'].
  destruct H as (Hcalls & _ & _ & Hr). simpl in Hok.
  case_decide as Hz; [by apply nil_length_inv in Hz|].
  assert (Hnone : delete_failures
            (zip_with delete_event (generatedNamespaces w) answers) = []).
  { destruct (delete_failures _) as [|line lines] eqn:E; [done|].
    rewrite Hr in Hok. unfold delete_result in Hok.
    case_decide as Hl; [discriminate | simpl in Hl; lia]. }
  split; [exact Hcalls|]. split.
  - rewrite Hr, Hnone. reflexivity.
  - by apply delete_counts.
Qed.
End DeleteTheorems.

Lemma deleteGeneratedNamespaces_collects_errors_witness :
  let w := Doubles.extension (Some Doubles.refusing_client)
             ["vm-test-err"; "vm-test-abc123"] in
  let '(r, w') := handleDeleteGeneratedNamespaces Doubles.empty_request w in
  Success r = false ∧
  Error r = "failed to delete namespaces: vm-test-err: permission denied; vm-test-abc123: permission denied" ∧
  api_calls w' = [delete_event "vm-test-err" (Some (errors_New "permission denied"));
                  delete_event "vm-test-abc123"
                    (Some (errors_New "permission denied"))] ∧
  generatedNamespaces w' = [].
Proof.
  intros w.
  pose proof (deleteGeneratedNamespaces_collects_errors w Doubles.refusing_client
                Doubles.empty_request eq_refl ltac:(discriminate)) as H.
  change (delete_answers Doubles.refusing_client (generatedNamespaces w)
            (client_state w))
    with ([Some (errors_New "permission denied");
           Some (errors_New "permission denied")], tt) in H.
  cbv zeta in H.
  destruct (handleDeleteGeneratedNamespaces Doubles.empty_request w) as [r w'].
  destruct H as (_ & Hcalls & _ & _ & Hiff & Herr & _ & Htracked).
  assert (Hr : Success r = false).
  { apply Hiff. exists "vm-test-err", (errors_New "permission denied").
    split; [apply list_elem_of_here | reflexivity]. }
  split; [exact Hr|]. split; [exact (Herr Hr)|].
  split; [exact Hcalls | exact Htracked].
Defined.

Lemma deleteGeneratedNamespaces_nothing_tracked_witness :
  let w := Doubles.extension (Some Doubles.storing_client) [] in
  handleDeleteGeneratedNamespaces Doubles.empty_request w
    = (sdk_Success "No generated namespaces to delete", w) ∧
  Success (sdk_Success "No generated namespaces to delete") = true ∧
  api_calls (handleDeleteGeneratedNamespaces Doubles.empty_request w).2 = [].
Proof.
  intros w.
  apply (deleteGeneratedNamespaces_nothing_tracked w Doubles.storing_client
           Doubles.empty_request); reflexivity.
Defined.

Lemma deleteGeneratedNamespaces_reports_snapshot_size_witness :
  let w := Doubles.extension (Some Doubles.gone_client)
             ["vm-test-gone"; "vm-test-abc123"] in
  ∃ answers,
    length answers = 2 ∧
    let evs := zip_with delete_event ["vm-test-gone"; "vm-test-abc123"] answers in
    let '(r, w') := handleDeleteGeneratedNamespaces Doubles.empty_request w in
    api_calls w' = [] ++ evs ∧
    Message r = "Deleted 2 generated namespace(s)" ∧
    2 = deletes_performed evs + deletes_already_gone evs.
Proof.
  intros w.
  apply (deleteGeneratedNamespaces_reports_snapshot_size w Doubles.gone_client
           Doubles.empty_request);
    [reflexivity | discriminate | vm_compute; reflexivity].
Defined.

(** ** Interleaved bulk deletes *)

Section InterleavingProofs.
Context {C : Type}.
Implicit Types (w : World C) (cl : ResourceClient C) (t : DeleteCall).

(** A step of a call is one of: the critical section that reads the
    tracked list out and clears it; one delete call for the next pending
    name; or a step that touches neither the list nor the client. *)
Lemma delete_step_cases w cl t :
  client w = Some cl →
  let '(t', w') := delete_step t w in
  client w' = Some cl ∧ started t' = true ∧
  ((t = DelEntry ∧ observed t' = generatedNamespaces w ∧
    pending t' = generatedNamespaces w ∧ generatedNamespaces w' = [] ∧
    api_calls w' = api_calls w)
   ∨ (started t = true ∧ observed t' = observed t ∧
      generatedNamespaces w' = generatedNamespaces w ∧
      ∃ ns answer, pending t = ns :: pending t' ∧
                   api_calls w' = api_calls w ++ [delete_event ns answer])
   ∨ (started t = true ∧ observed t' = observed t ∧
      generatedNamespaces w' = generatedNamespaces w ∧
      pending t' = pending t ∧ api_calls w' = api_calls w)).
Proof.
  intros Hcl. destruct t as [|namespaces [|ns rest] errs|namespaces r].
  - unfold delete_step. unfold_m. rewrite Hcl.
    case_decide as Hz; simpl; (split; [done|]); (split; [done|]); left;
      repeat split; try done.
    by apply nil_length_inv in Hz.
  - simpl. unfold_m. repeat split; try done. right. right. done.
  - cbn [delete_step]. unfold mbind at 1, M_bind at 1, get_world.
    rewrite Hcl. unfold mbind, M_bind, ret, mret, M_ret.
    destruct (delete_one_spec cl ns errs w) as [answer H].
    destruct (delete_one cl ns errs w) as [errs' w'].
    destruct H as (Hc & _ & Hg & Hcl').
    split; [by rewrite Hcl'|]. split; [done|]. right. left.
    repeat split; try done. by exists ns, answer.
  - simpl. unfold_m. repeat split; try done. right. right. done.
Qed.

Lemma deleted_names_app evs1 evs2 :
  deleted_names (evs1 ++ evs2) = deleted_names evs1 ++ deleted_names evs2.
Proof. apply omap_app. Qed.

Lemma interleaving_inv_step L A0 cl who ts w :
  interleaving_inv L A0 cl ts w →
  let '(ts', w') := step_pair who ts w in
  interleaving_inv L A0 cl ts' w'.
Proof.
  intros (Hcl & evs & Hcalls & Hdel & Hobs & Hone & Hgen).
  destruct ts as [t1 t2]. simpl in *.
  destruct who; unfold step_pair; cbn [fst snd];
    unfold mbind, M_bind, ret, mret, M_ret.
  - pose proof (delete_step_cases w cl t1 Hcl) as H.
    destruct (delete_step t1 w) as [t1' w'].
    destruct H as (Hcl' & Hst & [H|[H|H]]).
    + destruct H as (-> & Ho & Hp & Hg & Hc). split; [done|].
      exists evs. simpl in *. rewrite Hc, Ho, Hp, Hg.
      repeat split; try done.
      * rewrite <- Hdel. rewrite !app_nil_r. by rewrite (comm app (pending t2)).
      * rewrite <- Hobs. rewrite !app_nil_r.
        by rewrite (comm app (observed t2)).
      * destruct Hgen as [->|([= ->] & _)]; [by left | by right].
      * by left.
    + destruct H as (Hs & Ho & Hg & ns & answer & Hp & Hc).
      split; [done|]. exists (evs ++ [delete_event ns answer]). simpl.
      rewrite Hc, Hcalls, Ho, Hg, deleted_names_app. rewrite Hp in Hdel.
      repeat split; try done.
      * by rewrite app_assoc.
      * rewrite <- Hdel. simpl.
        rewrite <- !app_assoc. apply Permutation_app_head. reflexivity.
      * destruct Hgen as [?|([= -> _] & _)]; [by left | done].
    + destruct H as (Hs & Ho & Hg & Hp & Hc).
      split; [done|]. exists evs. simpl. rewrite Hc, Ho, Hg, Hp.
      repeat split; try done.
      destruct Hgen as [?|([= -> _] & _)]; [by left | done].
  - pose proof (delete_step_cases w cl t2 Hcl) as H.
    destruct (delete_step t2 w) as [t2' w'].
    destruct H as (Hcl' & Hst & [H|[H|H]]).
    + destruct H as (-> & Ho & Hp & Hg & Hc). split; [done|].
      exists evs. simpl in *. rewrite Hc, Ho, Hp, Hg.
      repeat split; try done.
      * rewrite <- Hdel. by rewrite !app_nil_r.
      * rewrite <- Hobs. by rewrite !app_nil_r.
      * destruct Hgen as [->|([= -> ] & _)]; [by right | by left].
      * by left.
    + destruct H as (Hs & Ho & Hg & ns & answer & Hp & Hc).
      split; [done|]. exists (evs ++ [delete_event ns answer]). simpl.
      rewrite Hc, Hcalls, Ho, Hg, deleted_names_app. rewrite Hp in Hdel.
      repeat split; try done.
      * by rewrite app_assoc.
      * rewrite <- Hdel. simpl. rewrite <- !app_assoc.
        apply Permutation_app_head.
        change (ns :: pending t2' ++ generatedNamespaces w)
          with ([ns] ++ pending t2' ++ generatedNamespaces w).
        rewrite !app_assoc. apply Permutation_app_tail.
        apply Permutation_app_tail. apply Permutation_app_comm.
      * destruct Hgen as [?|([= _ ->] & _)]; [by left | done].
    + destruct H as (Hs & Ho & Hg & Hp & Hc).
      split; [done|]. exists evs. simpl. rewrite Hc, Ho, Hg, Hp.
      repeat split; try done.
      destruct Hgen as [?|([= _ ->] & _)]; [by left | done].
Qed.

Lemma interleaving_inv_run L A0 cl sched : ∀ ts w,
  interleaving_inv L A0 cl ts w →
  let '(ts', w') := run_schedule sched ts w in
  interleaving_inv L A0 cl ts' w'.
Proof.
  induction sched as [|who sched IH]; intros ts w Hinv; [exact Hinv|].
  cbn [run_schedule]. unfold mbind at 1, M_bind at 1.
  pose proof (interleaving_inv_step L A0 cl who ts w Hinv) as H.
  destruct (step_pair who ts w) as [ts1 w1]. by apply IH.
Qed.

Lemma interleaving_inv_init w cl :
  client w = Some cl →
  interleaving_inv (generatedNamespaces w) (api_calls w) cl
    (DelEntry, DelEntry) w.
Proof.
  intros Hcl. split; [done|]. exists []. simpl.
  rewrite app_nil_r. repeat split; try done; [by left | by right].
Qed.
End InterleavingProofs.

Section InterleavingTheorem.
Context {C : Type}.
Implicit Types (w : World C) (cl : ResourceClient C) (t : DeleteCall).

Lemma delete_run_returned n namespaces r w :
  delete_run n (DelReturned namespaces r) w = (DelReturned namespaces r, w).
Proof. induction n as [|n IH]; [reflexivity | exact IH]. Qed.

(** The loop of the machine, run without interruption, is [delete_loop]. *)
Lemma delete_run_loop cl snapshot rest : ∀ errs w,
  client w = Some cl →
  delete_run (length rest + 1) (DelLoop snapshot rest errs) w =
  (let '(errs', w') := delete_loop cl rest errs w in
   (DelReturned (Some snapshot) (delete_result snapshot errs'), w')).
Proof.
  induction rest as [|ns rest IH]; intros errs w Hcl; [reflexivity|].
  cbn [length Nat.add delete_run delete_step delete_loop].
  unfold mbind, M_bind, get_world. rewrite Hcl.
  destruct (delete_one_spec cl ns errs w) as [answer H].
  destruct (delete_one cl ns errs w) as [errs1 w1].
  destruct H as (_ & _ & _ & Hcl1). rewrite Hcl in Hcl1.
  unfold ret, mret, M_ret. exact (IH errs1 w1 Hcl1).
Qed.

(** The machine, run without interruption, is the handler. *)
Lemma delete_run_handler w cl req :
  client w = Some cl →
  delete_run (length (generatedNamespaces w) + 2) DelEntry w =
  (let '(r, w') := handleDeleteGeneratedNamespaces req w in
   (DelReturned (Some (generatedNamespaces w)) r, w')).
Proof.
  intros Hcl. replace (length (generatedNamespaces w) + 2)
    with (S (length (generatedNamespaces w) + 1)) by lia.
  cbn [delete_run delete_step]. unfold handleDeleteGeneratedNamespaces.
  unfold mbind, M_bind, get_world, take_namespaces, LogInfo, ret, mret, M_ret.
  rewrite Hcl. case_decide as Hz.
  - apply delete_run_returned.
  - rewrite (delete_run_loop cl) by done. by destruct (delete_loop _ _ _ _).
Qed.

Lemma delete_run_finishes cl n : ∀ t w,
  client w = Some cl → steps_left t w ≤ n →
  let '(t', w') := delete_run n t w in
  returned t' = true ∧ client w' = Some cl.
Proof.
  induction n as [|n IH]; intros t w Hcl Hn.
  - destruct t; simpl in *; try lia. done.
  - destruct t as [|namespaces [|ns rest] errs|namespaces r].
    + cbn [delete_run delete_step].
      unfold mbind, M_bind, get_world, take_namespaces, LogInfo, ret, mret, M_ret.
      rewrite Hcl. case_decide as Hz.
      * rewrite delete_run_returned. done.
      * apply IH; [done|]. simpl in *. lia.
    + cbn [delete_run delete_step]. unfold mbind, M_bind, ret, mret, M_ret.
      rewrite delete_run_returned. done.
    + cbn [delete_run delete_step].
      unfold mbind, M_bind, get_world. rewrite Hcl.
      destruct (delete_one_spec cl ns errs w) as [answer H].
      destruct (delete_one cl ns errs w) as [errs1 w1].
      destruct H as (_ & _ & _ & Hcl1). rewrite Hcl in Hcl1.
      unfold ret, mret, M_ret. apply IH; [done|]. simpl in *. lia.
    + rewrite delete_run_returned. done.
Qed.

Lemma run_schedule_app sched1 sched2 : ∀ ts w,
  run_schedule (sched1 ++ sched2) ts w =
  (let '(ts', w') := run_schedule sched1 ts w in run_schedule sched2 ts' w').
Proof.
  induction sched1 as [|who sched1 IH]; intros ts w; [reflexivity|].
  cbn [app run_schedule]. unfold mbind, M_bind.
  destruct (step_pair who ts w) as [ts1 w1]. apply IH.
Qed.

Lemma run_schedule_T1 n : ∀ t1 t2 w,
  run_schedule (replicate n T1) (t1, t2) w =
  (let '(t1', w') := delete_run n t1 w in ((t1', t2), w')).
Proof.
  induction n as [|n IH]; intros t1 t2 w; [reflexivity|].
  cbn [replicate run_schedule delete_run step_pair fst snd].
  unfold mbind, M_bind.
  destruct (delete_step t1 w) as [t1' w1]. unfold ret, mret, M_ret. apply IH.
Qed.

Lemma run_schedule_T2 n : ∀ t1 t2 w,
  run_schedule (replicate n T2) (t1, t2) w =
  (let '(t2', w') := delete_run n t2 w in ((t1, t2'), w')).
Proof.
  induction n as [|n IH]; intros t1 t2 w; [reflexivity|].
  cbn [replicate run_schedule delete_run step_pair fst snd].
  unfold mbind, M_bind.
  destruct (delete_step t2 w) as [t2' w1]. unfold ret, mret, M_ret. apply IH.
Qed.

(** Whatever has happened so far, letting the first call run and then the
    second brings both to their [return]. *)
Lemma both_calls_finish cl t1 t2 w :
  client w = Some cl →
  ∃ more,
    let '((t1', t2'), _) := run_schedule more (t1, t2) w in
    returned t1' = true ∧ returned t2' = true.
Proof.
  intros Hcl.
  pose proof (delete_run_finishes cl (steps_left t1 w) t1 w Hcl (le_n _)) as H1.
  destruct (delete_run (steps_left t1 w) t1 w) as [t1' w1] eqn:E1.
  destruct H1 as [Hr1 Hcl1].
  pose proof (delete_run_finishes cl (steps_left t2 w1) t2 w1 Hcl1 (le_n _)) as H2.
  destruct (delete_run (steps_left t2 w1) t2 w1) as [t2' w2] eqn:E2.
  destruct H2 as [Hr2 _].
  exists (replicate (steps_left t1 w) T1 ++ replicate (steps_left t2 w1) T2).
  rewrite run_schedule_app, run_schedule_T1, E1, run_schedule_T2, E2. done.
Qed.

Lemma returned_pending t : returned t = true → pending t = [].
Proof. by destruct t. Qed.

(** C2: with an initialized client, the first step of a bulk delete reads
    the tracked list out and clears it in one critical section, before any
    delete call; the call then issues its delete calls for exactly that
    snapshot and leaves the tracked list empty whatever the client answers;
    a second call after it finds nothing, succeeds with the "nothing to
    do" message and changes nothing; and however the steps of two
    concurrent calls are interleaved, the two snapshots together with what
    is still tracked are a rearrangement of the list both started from,
    one of the two snapshots is empty, every delete call made belongs to
    a snapshot, and once both calls have returned (which every schedule
    can be extended to) the tracked list is empty and the snapshots, as
    well as the delete calls made, contain each tracked name exactly as
    often as the list did. *)
Theorem deleteGeneratedNamespaces_snapshot_once w cl req sched :
  client w = Some cl →
  let L := generatedNamespaces w in
  (let '(t, w1) := delete_step DelEntry w in
   observed t = L ∧ generatedNamespaces w1 = [] ∧ api_calls w1 = api_calls w) ∧
  (let '(r, w') := handleDeleteGeneratedNamespaces req w in
   delete_run (length L + 2) DelEntry w = (DelReturned (Some L) r, w') ∧
   generatedNamespaces w' = [] ∧
   (∃ evs, api_calls w' = api_calls w ++ evs ∧ deleted_names evs = L) ∧
   handleDeleteGeneratedNamespaces req w'
     = (sdk_Success "No generated namespaces to delete", w')) ∧
  (let '((t1, t2), w') := run_schedule sched (DelEntry, DelEntry) w in
   ∃ evs,
     api_calls w' = api_calls w ++ evs ∧
     observed t1 ++ observed t2 ++ generatedNamespaces w' ≡ₚ L ∧
     (observed t1 = [] ∨ observed t2 = []) ∧
     deleted_names evs ++ pending t1 ++ pending t2 ++ generatedNamespaces w'
       ≡ₚ L ∧
     (returned t1 = true → returned t2 = true →
      generatedNamespaces w' = [] ∧ observed t1 ++ observed t2 ≡ₚ L ∧
      deleted_names evs ≡ₚ L)) ∧
  (∃ more,
     let '((t1, t2), _) := run_schedule (sched ++ more) (DelEntry, DelEntry) w in
     returned t1 = true ∧ returned t2 = true).
Proof.
  intros Hcl L. repeat apply conj.
  - pose proof (delete_step_cases w cl DelEntry Hcl) as H.
    destruct (delete_step DelEntry w) as [t w1].
    destruct H as (_ & _ & [H|[H|H]]); [|by destruct H..].
    by destruct H as (_ & ? & _ & ? & ?).
  - pose proof (delete_run_handler w cl req Hcl) as Hrun.
    destruct (handleDelete_spec w cl req Hcl) as (answers & Hlen & H).
    cbv zeta in H. destruct (handleDeleteGeneratedNamespaces req w) as [r w'].
    destruct H as (Hcalls & Hgen & Hcl' & _). rewrite Hcl in Hcl'.
    repeat apply conj; try done.
    + eexists. split; [exact Hcalls|]. by apply deleted_names_zip.
    + by apply (handleDelete_nothing_tracked w' cl req).
  - pose proof (interleaving_inv_run L (api_calls w) cl sched _ w
                  (interleaving_inv_init w cl Hcl)) as H.
    destruct (run_schedule sched (DelEntry, DelEntry) w) as [[t1 t2] w'].
    destruct H as (_ & evs & Hcalls & Hdel & Hobs & Hone & Hgen).
    exists evs. simpl in *. repeat apply conj; try done.
    + intros Hr1 Hr2. destruct Hgen as [Hg|([= -> _] & _)]; [|done].
      rewrite Hg in Hdel, Hobs.
      rewrite (returned_pending _ Hr1), (returned_pending _ Hr2) in Hdel.
      rewrite !app_nil_r in Hdel, Hobs. done.
  - pose proof (interleaving_inv_run L (api_calls w) cl sched _ w
                  (interleaving_inv_init w cl Hcl)) as H.
    destruct (run_schedule sched (DelEntry, DelEntry) w) as [[t1 t2] w'] eqn:E.
    destruct H as (Hcl' & _).
    destruct (both_calls_finish cl t1 t2 w' Hcl') as [more Hmore].
    exists more. by rewrite run_schedule_app, E.
Qed.
End InterleavingTheorem.

Lemma deleteGeneratedNamespaces_snapshot_once_witness :
  let w := Doubles.extension (Some Doubles.storing_client)
             ["vm-test-abc123"; "vm-test-def456"] in
  let '((t1, t2), w') :=
    run_schedule [T1; T2; T1; T2; T1; T1] (DelEntry, DelEntry) w in
  client w = Some Doubles.storing_client ∧
  returned t1 = true ∧ returned t2 = true ∧
  generatedNamespaces w' = [] ∧
  observed t1 ++ observed t2 ≡ₚ ["vm-test-abc123"; "vm-test-def456"] ∧
  deleted_names (api_calls w') ≡ₚ ["vm-test-abc123"; "vm-test-def456"].
Proof.
  intros w.
  pose proof (deleteGeneratedNamespaces_snapshot_once w Doubles.storing_client
                Doubles.empty_request [T1; T2; T1; T2; T1; T1] eq_refl)
    as (_ & _ & H & _).
  destruct (run_schedule [T1; T2; T1; T2; T1; T1] (DelEntry, DelEntry) w)
    as [[t1 t2] w'] eqn:E.
  vm_compute in E. injection E as <- <- <-.
  destruct H as (evs & Hcalls & _ & _ & _ & Hfin).
  destruct (Hfin eq_refl eq_refl) as (Hgen & Hobs & Hdel).
  simpl in Hcalls. rewrite <- Hcalls in Hdel.
  repeat split; assumption || reflexivity.
Defined.

(** ** The wait engine *)

Section WaitProperties.
Import WaitEngine.
Implicit Types (env : Env) (s : WaitSpec).

Lemma condition_met_iff s conds :
  condition_met s conds = true ↔
  ∃ c, c ∈ conds ∧ cond_type c = condition s
       ∧ cond_status c = default "True" (status s).
Proof.
  unfold condition_met. rewrite existsb_exists. split.
  - intros (c & Hin & Hc). apply andb_true_iff in Hc as [H1 H2].
    apply bool_decide_eq_true in H1, H2. exists c.
    by rewrite list_elem_of_In.
  - intros (c & Hin & H1 & H2). exists c. rewrite <- list_elem_of_In.
    split; [done|]. apply andb_true_iff.
    by split; apply bool_decide_eq_true.
Qed.

Lemma hit_iff env s t :
  hit env s t = true ↔
  canceled env t = false ∧
  ∃ conds c, Get env t = inl conds ∧ c ∈ conds ∧ cond_type c = condition s
             ∧ cond_status c = default "True" (status s).
Proof.
  unfold hit. destruct (canceled env t); simpl.
  { split; [done | by intros [? _]]. }
  destruct (Get env t) as [conds|err].
  - rewrite condition_met_iff. split.
    + intros (c & ? & ? & ?). split; [done|]. by exists conds, c.
    + intros (_ & conds' & c & [= <-] & ? & ? & ?). by exists c.
  - split; [done | by intros (_ & conds' & c & ? & _)].
Qed.

(** One iteration of the loop, by what the poll at [now] sees. *)
Lemma poll_step fuel env s start now :
  poll (S fuel) env s start now =
    if hit env s now then SATISFIED (now - start)
    else if quiet env s now then
      if decide (start + timeoutOf s ≤ now) then TIMED_OUT (now - start)
      else poll fuel env s start
             (Nat.min (now + interval env) (start + timeoutOf s))
    else if canceled env now then CANCELED
    else match Get env now with
         | inr err => FAILED err
         | inl _ => POLLING
         end.
Proof.
  cbn [poll]. unfold hit, quiet.
  destruct (canceled env now); [done|]. simpl.
  destruct (Get env now) as [conds|err].
  - by destruct (condition_met s conds).
  - by destruct (err_IsNotFound err).
Qed.

Lemma hit_not_quiet env s t : hit env s t = true → quiet env s t = false.
Proof.
  unfold hit, quiet. destruct (canceled env t); [done|]. simpl.
  destruct (Get env t) as [conds|err]; [|done]. by intros ->.
Qed.

(** The polls made from [now] on, and the one that satisfies the wait. *)
Lemma poll_satisfied env s start fuel : ∀ now e,
  now ≤ start + timeoutOf s →
  poll fuel env s start now = SATISFIED e ↔
  ∃ k, k < fuel ∧
       e = Nat.min (now + k * interval env) (start + timeoutOf s) - start ∧
       hit env s (Nat.min (now + k * interval env) (start + timeoutOf s)) = true ∧
       ∀ j, j < k →
         quiet env s (Nat.min (now + j * interval env) (start + timeoutOf s)) = true
         ∧ Nat.min (now + j * interval env) (start + timeoutOf s)
           < start + timeoutOf s.
Proof.
  induction fuel as [|fuel IH]; intros now e Hnow.
  - simpl. split; [done | intros (k & ? & _); lia].
  - assert (H0 : Nat.min (now + 0 * interval env) (start + timeoutOf s) = now)
      by lia.
    assert (Hshift : ∀ k,
      Nat.min (Nat.min (now + interval env) (start + timeoutOf s)
               + k * interval env) (start + timeoutOf s)
      = Nat.min (now + S k * interval env) (start + timeoutOf s))
      by (intros k; lia).
    rewrite poll_step. destruct (hit env s now) eqn:Hhit.
    + split.
      * intros [= <-]. exists 0. rewrite H0.
        repeat split; try done; lia.
      * intros (k & _ & -> & _ & Hq). destruct k as [|k].
        { by rewrite H0. }
        destruct (Hq 0 ltac:(lia)) as [Hq0 _]. rewrite H0 in Hq0.
        by rewrite (hit_not_quiet _ _ _ Hhit) in Hq0.
    + assert (Hrhs : ∀ P : Prop,
        (∃ k, k < S fuel ∧
           e = Nat.min (now + k * interval env) (start + timeoutOf s) - start ∧
           hit env s (Nat.min (now + k * interval env) (start + timeoutOf s))
             = true ∧
           ∀ j, j < k →
             quiet env s (Nat.min (now + j * interval env) (start + timeoutOf s))
               = true
             ∧ Nat.min (now + j * interval env) (start + timeoutOf s)
               < start + timeoutOf s) →
        (quiet env s now = true → now < start + timeoutOf s → P) → P).
      { intros P (k & _ & _ & Hk & Hq) HP. destruct k as [|k].
        - rewrite H0 in Hk. congruence.
        - destruct (Hq 0 ltac:(lia)) as [Hq0 Hd]. rewrite H0 in Hq0, Hd.
          by apply HP. }
      destruct (quiet env s now) eqn:Hquiet.
      * case_decide as Hd.
        { split; [done|]. intros H. apply (Hrhs _ H). lia. }
        rewrite IH by lia. split.
        -- intros (k & Hk & -> & Hh & Hq). exists (S k).
           rewrite <- !Hshift. split; [lia|]. split; [done|].
           split; [done|]. intros j Hj. destruct j as [|j].
           ++ rewrite H0. split; [done | lia].
           ++ rewrite <- Hshift. apply Hq. lia.
        -- intros (k & Hk & -> & Hh & Hq). destruct k as [|k].
           { rewrite H0 in Hh. congruence. }
           exists k. rewrite !Hshift. split; [lia|]. split; [done|].
           split; [done|]. intros j Hj. rewrite Hshift. apply Hq. lia.
      * split.
        -- destruct (canceled env now); [done|]. by destruct (Get env now).
        -- intros H. apply (Hrhs _ H). done.
Qed.

Lemma neither_hit_nor_quiet env s t :
  hit env s t = false → quiet env s t = false → canceled env t = false →
  ∃ err, Get env t = inr err ∧ err_IsNotFound err = false.
Proof.
  unfold hit, quiet. intros Hh Hq Hc. rewrite Hc in Hh, Hq. simpl in *.
  destruct (Get env t) as [conds|err]; [|by exists err].
  destruct (condition_met s conds); discriminate.
Qed.

(** With a positive interval the loop ends within [timeout + 1] polls. *)
Lemma poll_total env s start fuel : ∀ now,
  0 < interval env → now ≤ start + timeoutOf s →
  start + timeoutOf s < now + fuel →
  poll fuel env s start now ≠ POLLING.
Proof.
  induction fuel as [|fuel IH]; intros now Hi Hn Hd; [lia|].
  rewrite poll_step. destruct (hit env s now) eqn:Hh; [done|].
  destruct (quiet env s now) eqn:Hq.
  - case_decide; [done|]. apply IH; lia.
  - destruct (canceled env now) eqn:Hc; [done|].
    destruct (neither_hit_nor_quiet env s now Hh Hq Hc) as (err & -> & _).
    done.
Qed.

(** A resource that is never there: every poll is quiet, and the loop ends
    in [TIMED_OUT] at the deadline. *)
Lemma poll_never_satisfied env s start fuel : ∀ now,
  0 < interval env →
  (∀ t, quiet env s t = true) →
  start ≤ now → now ≤ start + timeoutOf s →
  start + timeoutOf s < now + fuel →
  poll fuel env s start now = TIMED_OUT (timeoutOf s).
Proof.
  induction fuel as [|fuel IH]; intros now Hi Hquiet Hs Hn Hd; [lia|].
  rewrite poll_step.
  destruct (hit env s now) eqn:Hh.
  { apply hit_not_quiet in Hh. by rewrite Hquiet in Hh. }
  rewrite Hquiet. case_decide.
  - f_equal. lia.
  - apply IH; try done; lia.
Qed.

(** A condition that shows at the deadline and not before is found by the
    poll made at the deadline. *)
Lemma poll_deadline_hit env s start fuel : ∀ now,
  0 < interval env →
  hit env s (start + timeoutOf s) = true →
  (∀ t, now ≤ t < start + timeoutOf s → quiet env s t = true) →
  start ≤ now → now ≤ start + timeoutOf s →
  start + timeoutOf s < now + fuel →
  poll fuel env s start now = SATISFIED (timeoutOf s).
Proof.
  induction fuel as [|fuel IH]; intros now Hi Hhit Hquiet Hs Hn Hd; [lia|].
  rewrite poll_step.
  destruct (decide (now = start + timeoutOf s)) as [->|Hne].
  - rewrite Hhit. f_equal. lia.
  - assert (Hq : quiet env s now = true) by (apply Hquiet; lia).
    destruct (hit env s now) eqn:Hh.
    { apply hit_not_quiet in Hh. congruence. }
    rewrite Hq. case_decide; [lia|].
    apply IH; try done; try lia. intros t Ht. apply Hquiet. lia.
Qed.

Lemma not_found_quiet env s t :
  canceled env t = false →
  (∃ err, Get env t = inr err ∧ err_IsNotFound err = true) →
  quiet env s t = true.
Proof.
  intros Hc (err & Hget & Hnf). unfold quiet. by rewrite Hc, Hget, Hnf.
Qed.

Lemma handleWait_success env s start :
  match handleWait env s start with
  | Some r => Success r = true ↔ ∃ e, wait env s start = SATISFIED e
  | None => wait env s start = POLLING
  end.
Proof.
  unfold handleWait. destruct (wait env s start) as [|e|e| |err]; simpl;
    try done; try (split; [done | by intros [? ?]]).
  split; [by exists e | done].
Qed.

End WaitProperties.


(** ** The permission probe *)

Section ProbeProperties.
Import PermissionProbe.

Lemma decode_expectation args query :
  decode args = inl query → expectedAllowed query = expect_allowed args.
Proof.
  unfold decode. repeat case_bool_decide; try discriminate.
  by intros [= <-].
Qed.

End ProbeProperties.


(* ===================================================================== *)
(** * Further properties                                                  *)
(* ===================================================================== *)

(** ** generateID, any length *)

Lemma alphanumeric_NoDup : NoDup (list_ascii_of_string alphanumeric).
Proof.
  apply (bool_decide_unpack (NoDup (list_ascii_of_string alphanumeric))).
  vm_compute. exact I.
Qed.

(** Two bytes give the same symbol exactly when they agree modulo 36. *)
Lemma symbol_eq_iff (b1 b2 : Byte.byte) :
  symbol b1 = symbol b2 ↔ symbol_index b1 = symbol_index b2.
Proof.
  split.
  - intros Heq.
    pose proof (symbol_at_total b1) as H1. pose proof (symbol_at_total b2) as H2.
    unfold symbol_at in H1, H2. rewrite get_lookup in H1, H2. rewrite Heq in H1.
    exact (NoDup_lookup _ _ _ _ alphanumeric_NoDup H1 H2).
  - intros Heq. unfold symbol, symbol_at. by rewrite Heq.
Qed.

Lemma string_of_list_ascii_inj (l1 l2 : list ascii) :
  string_of_list_ascii l1 = string_of_list_ascii l2 → l1 = l2.
Proof.
  intros H. apply (f_equal list_ascii_of_string) in H.
  by rewrite !list_ascii_of_string_of_list_ascii in H.
Qed.

(** X1: for every requested length, a random source that fills the buffer
    gives an id of exactly that length, made of lowercase letters and
    digits only, whose i-th character is the symbol of the i-th byte; a
    random source that fails gives no id but the source's error, prefixed
    with "failed to generate random id: ". *)
Theorem generateID_any_length (n : nat) (fill : nat → Byte.byte) (err : GoError) :
  (∃ id, generateID n (RandFilled fill) = inl id ∧
         String.length id = n ∧
         Forall (λ c, is_lower_alnum c = true) (list_ascii_of_string id) ∧
         ∀ i, String.get i id
              = if decide (i < n) then Some (symbol (fill i)) else None) ∧
  (∃ e, generateID n (RandFailed err) = inr e ∧
        err_Error e = "failed to generate random id: " +:+ err_Error err ∧
        err_IsNotFound e = err_IsNotFound err).
Proof.
  split.
  - destruct (generateID n (RandFilled fill)) as [id|e] eqn:E; [|discriminate].
    exists id. split; [done|]. split; [exact (generateID_length _ _ _ E)|].
    split; [exact (generateID_alphabet _ _ _ E) | exact (generateID_get _ _ _ E)].
  - by eexists.
Qed.

(** X2: two ids of the same length collide exactly when the random bytes
    agree modulo 36 at every position; in particular bytes that differ by a
    multiple of 36 give the same id. *)
Theorem generateID_collision (n : nat) (fill1 fill2 : nat → Byte.byte) :
  generateID n (RandFilled fill1) = generateID n (RandFilled fill2) ↔
  ∀ i, i < n →
    Byte.to_nat (fill1 i) `mod` 36 = Byte.to_nat (fill2 i) `mod` 36.
Proof.
  unfold generateID. split.
  - intros [= H%string_of_list_ascii_inj] i Hi.
    apply (symbol_eq_iff (fill1 i) (fill2 i)).
    apply (proj1 map_ext_in_iff H). apply in_seq. lia.
  - intros H. do 2 f_equal. apply map_ext_in. intros i Hi%in_seq.
    apply symbol_eq_iff. apply H. lia.
Qed.

(** ** handleCreateNamespace, all outcomes *)

Section CreateOutcomes.
Context {C : Type}.
Implicit Types (w : World C) (cl : ResourceClient C).

(** The three ways a create can go: it fails before the client is called
    and changes nothing; the client's create call fails; or the call
    succeeds and the returned name is tracked. *)
Lemma handleCreate_cases w rnd req :
  let '(r, w') := handleCreateNamespace rnd req w in
  client w' = client w ∧ kubeconfigPath w' = kubeconfigPath w ∧
  shell_calls w' = shell_calls w ∧
  ((w' = w ∧ Success r = false)
   ∨ (∃ name err,
        api_calls w' = api_calls w
                       ++ [EvCreate namespaceGVR (namespace_manifest name) "" (inr err)]
        ∧ generatedNamespaces w' = generatedNamespaces w ∧ Success r = false)
   ∨ (∃ cl name result,
        client w = Some cl
        ∧ api_calls w' = api_calls w
                         ++ [EvCreate namespaceGVR (namespace_manifest name) "" (inl result)]
        ∧ generatedNamespaces w' = generatedNamespaces w ++ [GetName result]
        ∧ Success r = true
        ∧ Outputs r !! "namespace" = Some (GetName result))).
Proof.
  unfold handleCreateNamespace. unfold_m.
  destruct (client w) as [cl|] eqn:Hcl;
    [|repeat split; try done; left; by split].
  destruct (Args req) as [| | | | |args];
    try (repeat split; try done; left; by split).
  case_decide; [repeat split; try done; left; by split|].
  destruct (generateID 8 rnd) as [id|err];
    [|repeat split; try done; left; by split].
  simpl. destruct (Create cl _ _ _ _) as [[result|err] c'] eqn:E; simpl.
  - repeat split; try done. right. right.
    eexists cl, _, result. repeat split; try done.
  - repeat split; try done. right. left. by eexists _, err.
Qed.

(** X3: whatever its arguments and whatever the client answers, a create
    leaves the client, the kubeconfig path and the shell alone; it makes no
    client call or exactly one, a create of a namespace manifest in cluster
    scope; and the tracked list gains one name when the result is a success
    and is unchanged when it is a failure. *)
Theorem createNamespace_effects w rnd req :
  let '(r, w') := handleCreateNamespace rnd req w in
  client w' = client w ∧ kubeconfigPath w' = kubeconfigPath w ∧
  shell_calls w' = shell_calls w ∧
  ∃ evs tracked,
    api_calls w' = api_calls w ++ evs ∧
    generatedNamespaces w' = generatedNamespaces w ++ tracked ∧
    (evs = [] ∨
     ∃ name answer,
       evs = [EvCreate namespaceGVR (namespace_manifest name) "" answer]) ∧
    (Success r = true ↔ ∃ name, tracked = [name]) ∧
    (Success r = false ↔ tracked = []) ∧
    (tracked = [] ∨ evs ≠ []).
Proof.
  pose proof (handleCreate_cases w rnd req) as H.
  destruct (handleCreateNamespace rnd req w) as [r w'].
  destruct H as (Hcl & Hk & Hs & [H|[H|H]]);
    (split; [done|]); (split; [done|]); (split; [done|]).
  - destruct H as [-> Hr]. exists [], []. rewrite !app_nil_r, Hr.
    repeat split; try done; try (by left); try (by intros [? ?]).
  - destruct H as (name & err & Hc & Hg & Hr).
    exists [EvCreate namespaceGVR (namespace_manifest name) "" (inr err)], [].
    rewrite app_nil_r, Hr.
    repeat split; try done; try (by left); try (by intros [? ?]).
    right. by eexists _, _.
  - destruct H as (cl & name & result & _ & Hc & Hg & Hr & _).
    exists [EvCreate namespaceGVR (namespace_manifest name) "" (inl result)],
           [GetName result].
    rewrite Hr. repeat split; try done; try (by right).
    + right. by eexists _, _.
    + by eexists.
Qed.

(** X4: with a client and a mapping as arguments, a create is refused with
    "prefix is required" when [prefix] is absent, not a string, or empty,
    and with the random source's error when that source fails; in both
    cases before the client is called and with nothing changed. *)
Theorem createNamespace_refused_before_call w cl rnd req args :
  client w = Some cl → Args req = AObject args →
  ((∀ p, args !! "prefix" = Some (AString p) → p = "") →
   handleCreateNamespace rnd req w
     = (sdk_Failure (errors_New "prefix is required"), w)) ∧
  (∀ p err, args !! "prefix" = Some (AString p) → p ≠ "" →
     rnd = RandFailed err →
     handleCreateNamespace rnd req w
       = (sdk_Failure (Errorf_w "failed to generate random id: " err), w)).
Proof.
  intros Hcl Hargs. unfold handleCreateNamespace. unfold_m.
  rewrite Hcl, Hargs. unfold get_string. split.
  - intros Hp. destruct (args !! "prefix") as [[| | |p| |]|] eqn:E; try done.
    by rewrite (Hp p eq_refl).
  - intros p err -> Hp ->. by case_decide.
Qed.

(** X5: on an extension whose client was never initialized both namespace
    operations fail with "kubernetes client not initialized" and change
    nothing; in particular a bulk delete does not clear the tracked list. *)
Theorem namespace_operations_without_client w rnd req :
  client w = None →
  handleCreateNamespace rnd req w
    = (sdk_Failure (errors_New "kubernetes client not initialized"), w) ∧
  handleDeleteGeneratedNamespaces req w
    = (sdk_Failure (errors_New "kubernetes client not initialized"), w) ∧
  generatedNamespaces (handleDeleteGeneratedNamespaces req w).2
    = generatedNamespaces w.
Proof.
  intros Hcl.
  unfold handleCreateNamespace, handleDeleteGeneratedNamespaces. unfold_m.
  by rewrite Hcl.
Qed.

(** X6: a bulk delete that follows a successful create issues its delete
    calls for the names tracked before the create, in order, and then for
    the name the create reported in its [namespace] output; afterwards
    nothing is tracked. *)
Theorem create_then_delete w rnd req req' :
  Success (handleCreateNamespace rnd req w).1 = true →
  let '(r1, w1) := handleCreateNamespace rnd req w in
  ∃ name answers,
    Outputs r1 !! "namespace" = Some name ∧
    length answers = S (length (generatedNamespaces w)) ∧
    let '(r2, w2) := handleDeleteGeneratedNamespaces req' w1 in
    api_calls w2 = api_calls w1
                   ++ zip_with delete_event (generatedNamespaces w ++ [name]) answers ∧
    generatedNamespaces w2 = [].
Proof.
  pose proof (handleCreate_cases w rnd req) as H.
  destruct (handleCreateNamespace rnd req w) as [r1 w1]. simpl.
  intros Hok. destruct H as (Hcl & _ & _ & [H|[H|H]]).
  - destruct H as [_ Hr]. congruence.
  - destruct H as (? & ? & _ & _ & Hr). congruence.
  - destruct H as (cl & nm & result & Hcl0 & Hc & Hg & _ & Hout).
    rewrite Hcl0 in Hcl.
    destruct (handleDelete_spec w1 cl req' Hcl) as (answers & Hlen & Hd).
    exists (GetName result), answers. split; [done|].
    rewrite Hg, length_app in Hlen. simpl in Hlen.
    split; [lia|]. cbv zeta in Hd.
    destruct (handleDeleteGeneratedNamespaces req' w1) as [r2 w2].
    destruct Hd as (Hc2 & Hg2 & _). by rewrite <- Hg.
Qed.
End CreateOutcomes.

Lemma createNamespace_refused_before_call_witness :
  let w := Doubles.extension (Some Doubles.storing_client) [] in
  handleCreateNamespace (Doubles.constant_source Byte.x25) Doubles.other_request w
    = (sdk_Failure (errors_New "prefix is required"), w).
Proof.
  intros w.
  apply (proj1 (createNamespace_refused_before_call w Doubles.storing_client
                  (Doubles.constant_source Byte.x25) Doubles.other_request
                  {["other" := AString "value"]} eq_refl eq_refl)).
  intros p H. vm_compute in H. discriminate.
Defined.

Lemma namespace_operations_without_client_witness :
  let w := Doubles.extension None ["vm-test-abc123"] in
  handleCreateNamespace (Doubles.constant_source Byte.x25) Doubles.vm_test_request w
    = (sdk_Failure (errors_New "kubernetes client not initialized"), w) ∧
  handleDeleteGeneratedNamespaces Doubles.vm_test_request w
    = (sdk_Failure (errors_New "kubernetes client not initialized"), w) ∧
  generatedNamespaces (handleDeleteGeneratedNamespaces Doubles.vm_test_request w).2
    = ["vm-test-abc123"].
Proof.
  intros w.
  exact (namespace_operations_without_client w (Doubles.constant_source Byte.x25)
           Doubles.vm_test_request eq_refl).
Defined.

Lemma create_then_delete_witness :
  let w := Doubles.extension (Some Doubles.storing_client) ["vm-test-abc123"] in
  let '(r1, w1) :=
    handleCreateNamespace (Doubles.constant_source Byte.x25)
      Doubles.vm_test_request w in
  ∃ name answers,
    Outputs r1 !! "namespace" = Some name ∧
    length answers = 2 ∧
    let '(r2, w2) := handleDeleteGeneratedNamespaces Doubles.empty_request w1 in
    api_calls w2 = api_calls w1
                   ++ zip_with delete_event (["vm-test-abc123"] ++ [name]) answers ∧
    generatedNamespaces w2 = [].
Proof.
  intros w.
  apply (create_then_delete w (Doubles.constant_source Byte.x25)
           Doubles.vm_test_request Doubles.empty_request).
  vm_compute. reflexivity.
Defined.

(** ** A create racing a bulk delete *)

Section CreateInterleavingProofs.
Context {C : Type}.
Implicit Types (w : World C) (cl : ResourceClient C).

Lemma create_step_cases w cl t :
  client w = Some cl →
  let '(t', w') := create_step t w in
  client w' = Some cl ∧
  deleted_names (api_calls w') = deleted_names (api_calls w) ∧
  (∃ evs, api_calls w' = api_calls w ++ evs ∧ deleted_names evs = []) ∧
  ((∃ result, t = CrCreated result ∧ created t' = [GetName result] ∧
              generatedNamespaces w' = generatedNamespaces w ++ [GetName result])
   ∨ (created t' = created t ∧ generatedNamespaces w' = generatedNamespaces w)).
Proof.
  intros Hcl. destruct t as [rnd req|result|tracked r].
  - unfold create_step. unfold_m. rewrite Hcl.
    assert (Hsame : ∀ r0,
      client w = Some cl ∧
      deleted_names (api_calls w) = deleted_names (api_calls w) ∧
      (∃ evs, api_calls w = api_calls w ++ evs ∧ deleted_names evs = []) ∧
      ((∃ result, CrEntry rnd req = CrCreated result ∧
                  created (CrReturned None r0) = [GetName result] ∧
                  generatedNamespaces w = generatedNamespaces w ++ [GetName result])
       ∨ (created (CrReturned None r0) = created (CrEntry rnd req) ∧
          generatedNamespaces w = generatedNamespaces w))).
    { intros r0. repeat split; try done.
      - exists []. by rewrite app_nil_r.
      - by right. }
    destruct (Args req) as [| | | | |args]; try apply Hsame.
    case_decide; [apply Hsame|].
    destruct (generateID 8 rnd) as [id|err]; [|apply Hsame].
    simpl. destruct (Create cl _ _ _ _) as [[result|err] c'] eqn:E; simpl;
      unfold deleted_names; rewrite omap_app; simpl; rewrite app_nil_r;
      (repeat split; try done; [by eexists [_] | by right]).
  - simpl. unfold_m. simpl. repeat split; try done.
    + exists []. by rewrite app_nil_r.
    + left. by exists result.
  - simpl. unfold_m. repeat split; try done.
    + exists []. by rewrite app_nil_r.
    + by right.
Qed.

(** The create machine, run without interruption, is the handler. *)
Lemma create_run_handler w rnd req :
  let '(r, w') := handleCreateNamespace rnd req w in
  ∃ tracked, create_run 2 (CrEntry rnd req) w = (CrReturned tracked r, w').
Proof.
  unfold handleCreateNamespace. cbn [create_run create_step]. unfold_m.
  destruct (client w) as [cl|]; [|by eexists].
  destruct (Args req) as [| | | | |args]; try by eexists.
  case_decide; [by eexists|].
  destruct (generateID 8 rnd) as [id|err]; [|by eexists].
  simpl. destruct (Create cl _ _ _ _) as [[result|err] c']; by eexists.
Qed.

Lemma mixed_inv_step L A0 cl who ts w :
  mixed_inv L A0 cl ts w →
  let '(ts', w') := step_mixed who ts w in
  mixed_inv L A0 cl ts' w'.
Proof.
  intros (Hcl & Hperm & evs & Hcalls & Hdel). destruct ts as [tc td].
  simpl in *. destruct who; unfold step_mixed; cbn [fst snd];
    unfold mbind, M_bind, ret, mret, M_ret.
  - pose proof (create_step_cases w cl tc Hcl) as H.
    destruct (create_step tc w) as [tc' w'].
    destruct H as (Hcl' & _ & (evs' & Hc & Hnone) & Hcase).
    split; [done|]. simpl. split.
    + destruct Hcase as [(result & -> & Hcr & Hg)|[Hcr Hg]]; rewrite Hcr, Hg.
      * simpl in Hperm. rewrite app_assoc, <- Hperm. simpl.
        apply Permutation_cons_append.
      * done.
    + exists (evs ++ evs'). rewrite Hc, Hcalls, app_assoc.
      split; [done|]. unfold deleted_names in *. rewrite omap_app, Hnone.
      by rewrite app_nil_r.
  - pose proof (delete_step_cases w cl td Hcl) as H.
    destruct (delete_step td w) as [td' w'].
    destruct H as (Hcl' & _ & [H|[H|H]]).
    + destruct H as (-> & Ho & Hp & Hg & Hc). simpl in Hperm, Hdel.
      split; [done|]. cbn [fst snd]. rewrite Ho, Hp, Hg, app_nil_r.
      split; [done|]. exists evs. rewrite Hc. split; [done|].
      rewrite app_nil_r in Hdel. by rewrite Hdel.
    + destruct H as (_ & Ho & Hg & ns & answer & Hp & Hc).
      split; [done|]. simpl. rewrite Ho, Hg. split; [done|].
      exists (evs ++ [delete_event ns answer]). rewrite Hc, Hcalls, app_assoc.
      split; [done|]. rewrite Hp in Hdel. rewrite <- Hdel.
      unfold deleted_names. rewrite omap_app. simpl. by rewrite <- app_assoc.
    + destruct H as (_ & Ho & Hg & Hp & Hc).
      split; [done|]. simpl. rewrite Ho, Hg, Hp, Hc. split; [done|].
      by exists evs.
Qed.

Lemma mixed_inv_run L A0 cl sched : ∀ ts w,
  mixed_inv L A0 cl ts w →
  let '(ts', w') := run_mixed sched ts w in
  mixed_inv L A0 cl ts' w'.
Proof.
  induction sched as [|who sched IH]; intros ts w Hinv; [exact Hinv|].
  cbn [run_mixed]. unfold mbind at 1, M_bind at 1.
  pose proof (mixed_inv_step L A0 cl who ts w Hinv) as H.
  destruct (step_mixed who ts w) as [ts1 w1]. by apply IH.
Qed.

(** X7: however the steps of a create and of a bulk delete are interleaved,
    no name is lost and none is invented: the name the create has tracked,
    together with the names tracked when both started, is a rearrangement of
    the delete's snapshot together with what is tracked now.  So a created
    name is either in the snapshot (and will be deleted by this call) or
    still tracked (for the next one).  The delete calls made so far are
    those of a prefix of the snapshot, in order.  The create machine run
    alone is [handleCreateNamespace]. *)
Theorem create_not_lost_by_concurrent_delete w cl rnd req sched :
  client w = Some cl →
  (let '(r, w') := handleCreateNamespace rnd req w in
   ∃ tracked, create_run 2 (CrEntry rnd req) w = (CrReturned tracked r, w')) ∧
  let '((tc, td), w') := run_mixed sched (CrEntry rnd req, DelEntry) w in
  created tc ++ generatedNamespaces w ≡ₚ observed td ++ generatedNamespaces w' ∧
  (∃ evs, api_calls w' = api_calls w ++ evs ∧
          deleted_names evs ++ pending td = observed td) ∧
  (∀ name r, tc = CrReturned (Some name) r →
     name ∈ observed td ∨ name ∈ generatedNamespaces w').
Proof.
  intros Hcl. split; [apply create_run_handler|].
  assert (Hinit : mixed_inv (generatedNamespaces w) (api_calls w) cl
                    (CrEntry rnd req, DelEntry) w).
  { split; [done|]. split; [done|]. exists []. by rewrite app_nil_r. }
  pose proof (mixed_inv_run _ _ cl sched _ w Hinit) as H.
  destruct (run_mixed sched (CrEntry rnd req, DelEntry) w) as [[tc td] w'].
  destruct H as (_ & Hperm & Hcalls). simpl in *.
  split; [done|]. split; [done|].
  intros name r ->. simpl in Hperm.
  apply elem_of_app. rewrite <- Hperm. apply list_elem_of_here.
Qed.
End CreateInterleavingProofs.

Lemma create_not_lost_by_concurrent_delete_witness :
  let w := Doubles.extension (Some Doubles.storing_client) ["vm-test-abc123"] in
  let '((tc, td), w') :=
    run_mixed [T1; T2; T1; T2; T2]
      (CrEntry (Doubles.constant_source Byte.x25) Doubles.vm_test_request,
       DelEntry) w in
  created tc = ["vm-test-bbbbbbbb"] ∧ observed td = ["vm-test-abc123"] ∧
  generatedNamespaces w' = ["vm-test-bbbbbbbb"] ∧
  created tc ++ ["vm-test-abc123"] ≡ₚ observed td ++ generatedNamespaces w'.
Proof.
  intros w.
  pose proof (create_not_lost_by_concurrent_delete w Doubles.storing_client
                (Doubles.constant_source Byte.x25) Doubles.vm_test_request
                [T1; T2; T1; T2; T2] eq_refl) as [_ H].
  destruct (run_mixed _ _ w) as [[tc td] w'] eqn:E.
  vm_compute in E. injection E as <- <- <-.
  destruct H as (Hperm & _). repeat split; try reflexivity. exact Hperm.
Defined.

(** ** The Helm handlers *)

Lemma prefix_spec (sub : string) : ∀ s,
  String.prefix sub s = true ↔ ∃ post, s = sub +:+ post.
Proof.
  induction sub as [|a sub IH]; intros [|b s]; simpl.
  - split; [by exists "" | done].
  - split; [by exists (String b s) | done].
  - split; [done | intros [post H]; discriminate H].
  - destruct (ascii_dec a b) as [->|Hne].
    + rewrite IH. split; intros [post H]; exists post.
      * simpl. by rewrite H.
      * simpl in H. by injection H.
    + split; [done | intros [post H]; injection H as ? _; done].
Qed.

(** [strings_Contains] finds exactly the substrings. *)
Lemma strings_Contains_spec (sub : string) : ∀ s,
  strings_Contains s sub = true ↔ ∃ pre post, s = pre +:+ sub +:+ post.
Proof.
  induction s as [|c s IH]; cbn [strings_Contains];
    rewrite orb_true_iff, prefix_spec.
  - split.
    + intros [[post H]|?]; [|done]. by exists "", post.
    + intros (pre & post & H). left.
      destruct pre; [by exists post | discriminate H].
  - rewrite IH. split.
    + intros [[post H]|(pre & post & H)]; [by exists "", post|].
      exists (String c pre), post. simpl. by rewrite H.
    + intros (pre & post & H). destruct pre as [|c' pre].
      * left. by exists post.
      * right. simpl in H. injection H as _ ->. by exists pre, post.
Qed.

Lemma append_nil_r (s : string) : s +:+ "" = s.
Proof.
  induction s as [|c s IH]; [done|].
  change (String c (s +:+ "") = String c s). by f_equal.
Qed.

Lemma append_assoc (s1 s2 s3 : string) : (s1 +:+ s2) +:+ s3 = s1 +:+ s2 +:+ s3.
Proof.
  induction s1 as [|c s1 IH]; [done|].
  change (String c ((s1 +:+ s2) +:+ s3) = String c (s1 +:+ s2 +:+ s3)).
  by f_equal.
Qed.

Lemma concat_empty_cons (x : string) (xs : list string) :
  String.concat "" (x :: xs) = x +:+ String.concat "" xs.
Proof. destruct xs; simpl; [by rewrite append_nil_r | done]. Qed.

Section HelmProofs.
Context {C : Type}.
Variable Sprintf_v : any → string.
Variable json_Unmarshal : string → list (gmap string any) + GoError.
Implicit Types (w : World C).

Lemma append_set_flags_spec cmdArgs values :
  append_set_flags Sprintf_v cmdArgs values
  = cmdArgs ++ set_flags Sprintf_v (map_to_list values).
Proof.
  unfold append_set_flags, set_flags. revert cmdArgs.
  induction (map_to_list values) as [|kv l IH]; intros cmdArgs; simpl.
  - by rewrite app_nil_r.
  - rewrite IH. by rewrite <- app_assoc.
Qed.

Lemma set_flags_length entries :
  length (set_flags Sprintf_v entries) = 2 * length entries.
Proof.
  unfold set_flags.
  induction entries as [|kv l IH]; [reflexivity|].
  cbn [fmap list_fmap concat app length]. cbn [fmap] in IH. lia.
Qed.

Lemma append_if_spec (b : bool) cmdArgs extra :
  append_if b cmdArgs extra = cmdArgs ++ (if b then extra else []).
Proof. destruct b; simpl; [done | by rewrite app_nil_r]. Qed.

Lemma nonempty_spec (s : string) : nonempty s = bool_decide (s ≠ "").
Proof. unfold nonempty. by repeat case_bool_decide. Qed.

(** The command line of [helmInstall], laid out. *)
Lemma install_args_spec (b1 b2 : bool) x chart e1 e2 values :
  append_set_flags Sprintf_v
    (append_if b2 (append_if b1 ((["install"] ++ [x]) ++ [chart]) e1) e2) values
  = ["install"; x; chart] ++ (if b1 then e1 else [])
    ++ (if b2 then e2 else []) ++ set_flags Sprintf_v (map_to_list values).
Proof.
  rewrite append_set_flags_spec, !append_if_spec. simpl.
  by rewrite <- !app_assoc.
Qed.

(** X8: [helmInstall] without a usable [chart] (absent, not a string, or
    empty) and [helmUninstall] without a usable [name] fail with "chart
    parameter is required" and "name parameter is required"; helm is not
    run and nothing changes. *)
Theorem helm_required_parameters w req args :
  Args req = AObject args →
  ((∀ c, args !! "chart" = Some (AString c) → c = "") →
   handleHelmInstall Sprintf_v req w
     = (sdk_Failure (errors_New "chart parameter is required"), w)) ∧
  ((∀ n, args !! "name" = Some (AString n) → n = "") →
   handleHelmUninstall req w
     = (sdk_Failure (errors_New "name parameter is required"), w)).
Proof.
  intros Hargs. unfold handleHelmInstall, handleHelmUninstall, get_string_ok.
  rewrite Hargs. split.
  - intros H. destruct (args !! "chart") as [[| | |c| |]|] eqn:E; try done.
    by rewrite (H c eq_refl).
  - intros H. destruct (args !! "name") as [[| | |n| |]|] eqn:E; try done.
    by rewrite (H n eq_refl).
Qed.

(** X9: with a non-empty [chart], [helmInstall] runs helm exactly once.
    The command line starts with [install], then the release name or
    [--generate-name] when none is given, then the chart; [--namespace]
    and [--kubeconfig] follow with their values when these are non-empty,
    and after them one [--set key=value] pair per entry of [values], the
    entries in some order.  The result is a success exactly when the
    command exits without error, and it carries the command's output
    either way. *)
Theorem helmInstall_command_line w req args chart :
  Args req = AObject args → args !! "chart" = Some (AString chart) →
  chart ≠ "" →
  let name := get_string args "name" in
  let namespace := get_string args "namespace" in
  ∃ entries,
    entries ≡ₚ map_to_list (get_map args "values") ∧
    length (set_flags Sprintf_v entries) = 2 * size (get_map args "values") ∧
    let cmdArgs :=
      ["install"; if decide (name = "") then "--generate-name" else name; chart]
      ++ (if decide (namespace = "") then [] else ["--namespace"; namespace])
      ++ (if decide (kubeconfigPath w = "") then []
          else ["--kubeconfig"; kubeconfigPath w])
      ++ set_flags Sprintf_v entries in
    let '(output, err) := CombinedOutput w "helm" cmdArgs in
    let '(r, w') := handleHelmInstall Sprintf_v req w in
    shell_calls w' = shell_calls w ++ [("helm", cmdArgs)] ∧
    (Success r = true ↔ err = None) ∧
    (err = None →
     Message r = "Helm chart installed successfully" +:+ newline +:+ output) ∧
    (∀ e, err = Some e →
     Error r = "helm install failed: " +:+ err_Error e +:+ newline
               +:+ "Output: " +:+ output).
Proof.
  intros Hargs Hchart Hne name namespace.
  exists (map_to_list (get_map args "values")). split; [done|].
  split; [by rewrite set_flags_length, length_map_to_list|].
  intros cmdArgs.
  unfold handleHelmInstall, get_string_ok. rewrite Hargs, Hchart.
  rewrite bool_decide_eq_false_2 by done. cbn [negb orb].
  unfold_m.
  assert (Hcmd :
    ["install"; if bool_decide (get_string args "name" ≠ "")
                then get_string args "name" else "--generate-name"; chart]
    ++ (if bool_decide (get_string args "namespace" ≠ "")
        then ["--namespace"; get_string args "namespace"] else [])
    ++ (if bool_decide (kubeconfigPath w ≠ "")
        then ["--kubeconfig"; kubeconfigPath w] else [])
    ++ set_flags Sprintf_v (map_to_list (get_map args "values")) = cmdArgs).
  { unfold cmdArgs, name, namespace.
    repeat case_bool_decide; repeat case_decide; done. }
  assert (Hname :
    (if nonempty (get_string args "name")
     then ["install"] ++ [get_string args "name"]
     else ["install"] ++ ["--generate-name"])
    = ["install"] ++ [if bool_decide (get_string args "name" ≠ "")
                      then get_string args "name" else "--generate-name"]).
  { rewrite nonempty_spec. by case_bool_decide. }
  rewrite Hname, install_args_spec, !nonempty_spec, Hcmd. simpl.
  destruct (CombinedOutput w "helm" cmdArgs) as [output [e|]]; simpl.
  - split; [done|]. split; [done|]. split; [done|]. by intros e' [= <-].
  - done.
Qed.

(** X10: with a non-empty [name], [helmUninstall] runs helm exactly once,
    as [uninstall name] followed by [--namespace] and [--kubeconfig] with
    their values when these are non-empty.  It reports success when the
    command exits without error, and also when it fails with an output
    that contains "not found" anywhere; only a failure whose output does
    not contain "not found" is reported as a failure. *)
Theorem helmUninstall_not_found_is_success w req args name :
  Args req = AObject args → args !! "name" = Some (AString name) → name ≠ "" →
  let namespace := get_string args "namespace" in
  let cmdArgs :=
    ["uninstall"; name]
    ++ (if decide (namespace = "") then [] else ["--namespace"; namespace])
    ++ (if decide (kubeconfigPath w = "") then []
        else ["--kubeconfig"; kubeconfigPath w]) in
  let '(output, err) := CombinedOutput w "helm" cmdArgs in
  let '(r, w') := handleHelmUninstall req w in
  shell_calls w' = shell_calls w ++ [("helm", cmdArgs)] ∧
  (Success r = true ↔
     err = None ∨ ∃ pre post, output = pre +:+ "not found" +:+ post) ∧
  (err ≠ None → (∃ pre post, output = pre +:+ "not found" +:+ post) →
   Message r = "Helm release '" +:+ name +:+ "' not found (already uninstalled)").
Proof.
  intros Hargs Hname Hne namespace cmdArgs.
  unfold handleHelmUninstall, get_string_ok. rewrite Hargs, Hname.
  rewrite bool_decide_eq_false_2 by done. cbn [negb orb].
  unfold_m. rewrite !append_if_spec, !nonempty_spec.
  assert (Hcmd :
    (["uninstall"; name]
     ++ (if bool_decide (get_string args "namespace" ≠ "")
         then ["--namespace"; get_string args "namespace"] else []))
    ++ (if bool_decide (kubeconfigPath w ≠ "")
        then ["--kubeconfig"; kubeconfigPath w] else []) = cmdArgs).
  { unfold cmdArgs, namespace. rewrite <- app_assoc.
    repeat case_bool_decide; repeat case_decide; done. }
  rewrite Hcmd. simpl.
  destruct (CombinedOutput w "helm" cmdArgs) as [output [e|]]; simpl.
  - destruct (strings_Contains output "not found") eqn:Hc; simpl.
    + apply strings_Contains_spec in Hc. split; [done|]. split; [|done].
      split; [by right | done].
    + split; [done|]. split.
      * split; [done|]. intros [?|Hsub]; [done|].
        apply strings_Contains_spec in Hsub. congruence.
      * intros _ Hsub. apply strings_Contains_spec in Hsub. congruence.
  - split; [done|]. split; [|done]. split; [by left | done].
Qed.

(** X11: with a mapping as arguments, [helmList] runs helm exactly once, as
    [list --output json] followed by [--all-namespaces] when
    [allNamespaces] is true (a [namespace] given as well is then ignored),
    otherwise by [--namespace] and its value when that is non-empty, and
    by [--kubeconfig] and its value when set.  It succeeds exactly when the
    command exits without error and its output is empty or decodes; an
    empty output is not decoded and, like an empty list, is reported as "No
    Helm releases found"; otherwise the message is the header with the
    number of releases followed by one line per release. *)
Theorem helmList_command_line w req args :
  Args req = AObject args →
  let namespace := get_string args "namespace" in
  let cmdArgs :=
    ["list"; "--output"; "json"]
    ++ (if get_bool args "allNamespaces" then ["--all-namespaces"]
        else if decide (namespace = "") then [] else ["--namespace"; namespace])
    ++ (if decide (kubeconfigPath w = "") then []
        else ["--kubeconfig"; kubeconfigPath w]) in
  let '(output, err) := CombinedOutput w "helm" cmdArgs in
  let '(r, w') := handleHelmList json_Unmarshal req w in
  shell_calls w' = shell_calls w ++ [("helm", cmdArgs)] ∧
  (Success r = true ↔
     err = None ∧ (output = "" ∨ ∃ releases, json_Unmarshal output = inl releases)) ∧
  (err = None → output = "" ∨ json_Unmarshal output = inl [] →
   Message r = "No Helm releases found") ∧
  (∀ releases, err = None → output ≠ "" →
     json_Unmarshal output = inl releases → releases ≠ [] →
     Message r = "Found " +:+ Sprintf_d (length releases) +:+ " Helm release(s):"
                 +:+ newline +:+ String.concat "" (release_line <$> releases)).
Proof.
  intros Hargs namespace cmdArgs.
  unfold handleHelmList. rewrite Hargs. unfold_m.
  assert (Hcmd :
    append_if (nonempty (kubeconfigPath w))
      (if get_bool args "allNamespaces"
       then ["list"; "--output"; "json"] ++ ["--all-namespaces"]
       else append_if (nonempty (get_string args "namespace"))
              ["list"; "--output"; "json"]
              ["--namespace"; get_string args "namespace"])
      ["--kubeconfig"; kubeconfigPath w] = cmdArgs).
  { unfold cmdArgs, namespace. rewrite !append_if_spec, !nonempty_spec.
    destruct (get_bool args "allNamespaces");
      repeat case_bool_decide; repeat case_decide; done. }
  rewrite Hcmd. simpl.
  destruct (CombinedOutput w "helm" cmdArgs) as [output [e|]]; simpl.
  { split; [done|]. split; [|done]. split; [done | by intros [? _]]. }
  assert (Hfold : ∀ releases header,
    foldl (λ acc release, acc +:+ release_line release) header releases
    = header +:+ String.concat "" (release_line <$> releases)).
  { induction releases as [|x xs IH]; intros header.
    - simpl. by rewrite append_nil_r.
    - cbn [foldl fmap list_fmap]. rewrite IH.
      change (release_line x :: list_fmap _ _ release_line xs)
        with (release_line x :: (release_line <$> xs)).
      by rewrite concat_empty_cons, append_assoc. }
  case_decide as Hlen.
  - assert (Hout : output ≠ "") by (intros ->; simpl in Hlen; lia).
    destruct (json_Unmarshal output) as [releases|e] eqn:Hjson; simpl.
    + case_decide as Hz; simpl.
      * apply nil_length_inv in Hz as ->. split; [done|]. split.
        { split; [|done]. intros _. split; [done|]. right. by exists []. }
        split; [done|]. by intros releases _ _ [= <-].
      * split; [done|]. split.
        { split; [|done]. intros _. split; [done|]. right. by exists releases. }
        split.
        { intros _ [?|[= ->]]; [done|]. done. }
        intros releases' _ _ [= <-] _. rewrite Hfold.
        by rewrite !append_assoc.
    + split; [done|]. split.
      { split; [done|]. intros [_ [?|[? ?]]]; done. }
      split; [by intros _ [?|?] | done].
  - assert (Hout : output = "").
    { destruct output; [done | simpl in Hlen; lia]. }
    subst output. simpl. split; [done|]. split.
    { split; [|done]. intros _. split; [done | by left]. }
    split; [done|]. by intros releases _ ?.
Qed.

Ltac frame_left := repeat split; try done; by left.
Ltac frame_right := simpl; repeat split; try done; right; by eexists.
Ltac split_output :=
  simpl;
  match goal with |- context [CombinedOutput ?w0 "helm" ?a] =>
    destruct (CombinedOutput w0 "helm" a) as [output [e|]] end; simpl.

Lemma helmInstall_frame w req :
  helm_only w (handleHelmInstall Sprintf_v req w).2.
Proof.
  unfold helm_only, handleHelmInstall, get_string_ok. unfold_m.
  destruct (Args req) as [| | | | |args]; try frame_left.
  destruct (args !! "chart") as [[| | |c| |]|]; try frame_left.
  cbn [negb orb]. case_bool_decide; [frame_left|].
  split_output; frame_right.
Qed.

Lemma helmList_frame w req :
  helm_only w (handleHelmList json_Unmarshal req w).2.
Proof.
  unfold helm_only, handleHelmList. unfold_m.
  destruct (Args req) as [| | | | |args]; try frame_left.
  split_output; [frame_right|].
  case_decide; [destruct (json_Unmarshal output) as [rs|e]|];
    try case_decide; frame_right.
Qed.

Lemma helmUninstall_frame w req :
  helm_only w (handleHelmUninstall req w).2.
Proof.
  unfold helm_only, handleHelmUninstall, get_string_ok. unfold_m.
  destruct (Args req) as [| | | | |args]; try frame_left.
  destruct (args !! "name") as [[| | |n| |]|]; try frame_left.
  cbn [negb orb]. case_bool_decide; [frame_left|].
  split_output; [|frame_right].
  destruct (strings_Contains output "not found"); frame_right.
Qed.

(** X12: whatever their arguments and whatever helm answers, the three
    Helm handlers leave the client, its state, its call log, the tracked
    namespaces and the kubeconfig path alone, and run at most one command,
    which is [helm]. *)
Theorem helm_handlers_frame w req :
  helm_only w (handleHelmInstall Sprintf_v req w).2 ∧
  helm_only w (handleHelmList json_Unmarshal req w).2 ∧
  helm_only w (handleHelmUninstall req w).2.
Proof.
  split; [apply helmInstall_frame|].
  split; [apply helmList_frame | apply helmUninstall_frame].
Qed.
End HelmProofs.

Lemma helm_required_parameters_witness :
  let w := Doubles.with_helm "" Doubles.helm_silent in
  handleHelmInstall (λ _, "") Doubles.other_request w
    = (sdk_Failure (errors_New "chart parameter is required"), w) ∧
  handleHelmUninstall Doubles.other_request w
    = (sdk_Failure (errors_New "name parameter is required"), w).
Proof.
  intros w.
  destruct (helm_required_parameters (λ _, "") w Doubles.other_request
              {["other" := AString "value"]} eq_refl) as [H1 H2].
  split; [apply H1 | apply H2]; intros x H; vm_compute in H; discriminate.
Defined.

Lemma helmInstall_command_line_witness :
  let w := Doubles.with_helm "/home/dev/.kube/config" Doubles.helm_silent in
  let '(r, w') := handleHelmInstall (λ _, "") Doubles.install_request w in
  shell_calls w' = [("helm", ["install"; "test-release";
                              "oci://registry.io/chart/nginx";
                              "--kubeconfig"; "/home/dev/.kube/config"])] ∧
  Success r = true.
Proof.
  intros w.
  destruct (helmInstall_command_line (λ _, "") w Doubles.install_request
              _ "oci://registry.io/chart/nginx" eq_refl eq_refl
              ltac:(discriminate)) as (entries & Hperm & _ & H).
  assert (entries = []) as ->.
  { apply Permutation_nil. symmetry. exact Hperm. }
  cbv zeta in H.
  destruct (handleHelmInstall (λ _, "") Doubles.install_request w) as [r w'].
  vm_compute CombinedOutput in H. destruct H as (Hcalls & Hok & _).
  split; [exact Hcalls | by apply Hok].
Defined.

Lemma helmUninstall_not_found_is_success_witness :
  let w := Doubles.with_helm "" Doubles.helm_release_missing in
  let '(r, w') := handleHelmUninstall Doubles.uninstall_request w in
  shell_calls w' = [("helm", ["uninstall"; "test-release-nonexistent"])] ∧
  Success r = true.
Proof.
  intros w.
  pose proof (helmUninstall_not_found_is_success w Doubles.uninstall_request
                _ "test-release-nonexistent" eq_refl eq_refl
                ltac:(discriminate)) as H.
  cbv zeta in H.
  destruct (handleHelmUninstall Doubles.uninstall_request w) as [r w'].
  vm_compute CombinedOutput in H. destruct H as (Hcalls & Hok & _).
  split; [exact Hcalls|]. apply Hok. right.
  by exists "Error: uninstall: Release not loaded: test-release-nonexistent: release: ",
            "".
Defined.

Lemma helmList_command_line_witness :
  let w := Doubles.with_helm "" Doubles.helm_silent in
  let '(r, w') := handleHelmList (λ _, inl []) Doubles.list_all_request w in
  shell_calls w' = [("helm", ["list"; "--output"; "json"; "--all-namespaces"])] ∧
  Message r = "No Helm releases found".
Proof.
  intros w.
  pose proof (helmList_command_line (λ _, inl []) w Doubles.list_all_request
                _ eq_refl) as H.
  cbv zeta in H.
  destruct (handleHelmList (λ _, inl []) Doubles.list_all_request w) as [r w'].
  vm_compute CombinedOutput in H. destruct H as (Hcalls & _ & Hnone & _).
  split; [exact Hcalls|]. apply Hnone; [done | by left].
Defined.

(** ** handleInitialize *)

Section InitializeProofs.
Context {C Cfg Dyn Authz : Type}.
Variable as_client : dynamicClientAdapter Dyn Authz → ResourceClient C.
Implicit Types (host : Host Cfg Dyn Authz) (w : World C).

(** X13: the kubeconfig path.  A configured path that is non-empty and does
    not start with a tilde is used as it is, whether or not a home
    directory can be found.  A path that starts with a tilde is the rest
    of it joined to the home directory.  Without a configured path (the key
    is absent, not a string, or empty) it is [.kube/config] under the home
    directory.  In the last two cases a missing home directory is an
    error. *)
Theorem kubeconfig_path_rules host config :
  let configured := get_string config "kubeconfig" in
  (configured ≠ "" → String.prefix "~" configured = false →
   kubeconfig_path host config = inl configured) ∧
  (∀ home, String.prefix "~" configured = true →
     UserHomeDir host = inl home →
     filepath_Join host [home; drop_first configured] ≠ "" →
     kubeconfig_path host config
       = inl (filepath_Join host [home; drop_first configured])) ∧
  (∀ home, configured = "" → UserHomeDir host = inl home →
     kubeconfig_path host config
       = inl (filepath_Join host [home; ".kube"; "config"])) ∧
  (∀ err, configured = "" ∨ String.prefix "~" configured = true →
     UserHomeDir host = inr err →
     kubeconfig_path host config
       = inr (Errorf_w "failed to get home directory: " err)) ∧
  ((∀ s, config !! "kubeconfig" ≠ Some (AString s)) → configured = "").
Proof.
  intros configured. unfold kubeconfig_path. fold configured.
  repeat apply conj.
  - intros Hne ->. by case_decide.
  - intros home -> -> Hjoin. by case_decide.
  - intros home -> ->. done.
  - intros err [->| ->] ->; [done|]. done.
  - intros H. unfold configured, get_string.
    destruct (config !! "kubeconfig") as [[| | |s| |]|] eqn:E; try done.
    by destruct (H s).
Qed.

(** X14: [handleInitialize] returns no error exactly when a path was
    found, the file is not reported missing, and the configuration and both
    clients could be built; only then is the client set, to the adapter for
    that path.  A path whose file does not exist gives "kubeconfig not
    found: " and the path.  Every error leaves the extension as it was, so
    an extension whose initialization failed still answers a create with
    "kubernetes client not initialized".  The tracked namespaces are never
    touched. *)
Theorem handleInitialize_sets_client host config w :
  let '(err, w') := handleInitialize as_client host config w in
  (err = None ↔
     ∃ path cfg dyn authz,
       kubeconfig_path host config = inl path ∧
       Stat_IsNotExist host path = false ∧
       BuildConfigFromFlags host "" path = inl cfg ∧
       dynamic_NewForConfig host cfg = inl dyn ∧
       authorization_NewForConfig host cfg = inl authz ∧
       client w' = Some (as_client (mkAdapter dyn authz path))) ∧
  (∀ path, kubeconfig_path host config = inl path →
     Stat_IsNotExist host path = true →
     err = Some (errors_New ("kubeconfig not found: " +:+ path))) ∧
  (err ≠ None → w' = w) ∧
  (err ≠ None → client w = None → ∀ rnd req,
     handleCreateNamespace rnd req w'
       = (sdk_Failure (errors_New "kubernetes client not initialized"), w')) ∧
  generatedNamespaces w' = generatedNamespaces w.
Proof.
  unfold handleInitialize. unfold_m.
  assert (Hfail : ∀ e : GoError,
    (Some e = None ↔
       ∃ path cfg dyn authz,
         kubeconfig_path host config = inl path ∧
         Stat_IsNotExist host path = false ∧
         BuildConfigFromFlags host "" path = inl cfg ∧
         dynamic_NewForConfig host cfg = inl dyn ∧
         authorization_NewForConfig host cfg = inl authz ∧
         client w = Some (as_client (mkAdapter dyn authz path))) →
    (∀ path, kubeconfig_path host config = inl path →
       Stat_IsNotExist host path = true →
       Some e = Some (errors_New ("kubeconfig not found: " +:+ path))) →
    (Some e = None ↔
       ∃ path cfg dyn authz,
         kubeconfig_path host config = inl path ∧
         Stat_IsNotExist host path = false ∧
         BuildConfigFromFlags host "" path = inl cfg ∧
         dynamic_NewForConfig host cfg = inl dyn ∧
         authorization_NewForConfig host cfg = inl authz ∧
         client w = Some (as_client (mkAdapter dyn authz path))) ∧
    (∀ path, kubeconfig_path host config = inl path →
       Stat_IsNotExist host path = true →
       Some e = Some (errors_New ("kubeconfig not found: " +:+ path))) ∧
    (Some e ≠ None → w = w) ∧
    (Some e ≠ None → client w = None → ∀ rnd req,
       handleCreateNamespace rnd req w
         = (sdk_Failure (errors_New "kubernetes client not initialized"), w)) ∧
    generatedNamespaces w = generatedNamespaces w).
  { intros e H1 H2. repeat split; try done; try apply H1.
    intros _ Hcl rnd req. unfold handleCreateNamespace. unfold_m. by rewrite Hcl. }
  destruct (kubeconfig_path host config) as [path|e] eqn:Hpath.
  2:{ apply Hfail; [|done]. split; [done|]. by intros (? & ? & ? & ? & ? & _). }
  destruct (Stat_IsNotExist host path) eqn:Hstat.
  { apply Hfail.
    - split; [done|]. intros (p & ? & ? & ? & [= <-] & ? & _). congruence.
    - by intros p [= <-] _. }
  destruct (BuildConfigFromFlags host "" path) as [cfg|e] eqn:Hcfg.
  2:{ apply Hfail.
      - split; [done|]. intros (p & ? & ? & ? & [= <-] & _ & ? & _). congruence.
      - intros p [= <-] ?. congruence. }
  destruct (dynamic_NewForConfig host cfg) as [dyn|e] eqn:Hdyn.
  2:{ apply Hfail.
      - split; [done|].
        intros (p & c & ? & ? & [= <-] & _ & Hc & ? & _).
        rewrite Hcfg in Hc. injection Hc as <-. congruence.
      - intros p [= <-] ?. congruence. }
  destruct (authorization_NewForConfig host cfg) as [authz|e] eqn:Hauthz.
  2:{ apply Hfail.
      - split; [done|].
        intros (p & c & ? & ? & [= <-] & _ & Hc & _ & ? & _).
        rewrite Hcfg in Hc. injection Hc as <-. congruence.
      - intros p [= <-] ?. congruence. }
  simpl. repeat split; try done.
  - intros _. by exists path, cfg, dyn, authz.
  - intros p [= <-] ?. congruence.
Qed.
End InitializeProofs.

Lemma kubeconfig_path_rules_witness :
  kubeconfig_path Doubles.home_host {["kubeconfig" := AString "/etc/kube/config"]}
    = inl "/etc/kube/config" ∧
  kubeconfig_path Doubles.homeless_host
                  {["kubeconfig" := AString "/etc/kube/config"]}
    = inl "/etc/kube/config" ∧
  kubeconfig_path Doubles.home_host {["kubeconfig" := AString "~/.kube/config"]}
    = inl "/home/dev/.kube/config" ∧
  kubeconfig_path Doubles.home_host {["kubeconfig" := AString "~dev/config"]}
    = inl "/home/dev/dev/config" ∧
  kubeconfig_path Doubles.home_host {["kubeconfig" := ABool true]}
    = inl "/home/dev/.kube/config" ∧
  kubeconfig_path Doubles.homeless_host ∅
    = inr (Errorf_w "failed to get home directory: "
             (errors_New "$HOME is not defined")).
Proof.
  repeat apply conj.
  - destruct (kubeconfig_path_rules Doubles.home_host
                {["kubeconfig" := AString "/etc/kube/config"]}) as (H & _).
    by apply H.
  - destruct (kubeconfig_path_rules Doubles.homeless_host
                {["kubeconfig" := AString "/etc/kube/config"]}) as (H & _).
    by apply H.
  - destruct (kubeconfig_path_rules Doubles.home_host
                {["kubeconfig" := AString "~/.kube/config"]}) as (_ & H & _).
    by apply (H "/home/dev").
  - destruct (kubeconfig_path_rules Doubles.home_host
                {["kubeconfig" := AString "~dev/config"]}) as (_ & H & _).
    by apply (H "/home/dev").
  - destruct (kubeconfig_path_rules Doubles.home_host
                {["kubeconfig" := ABool true]}) as (_ & _ & H & _ & Hnone).
    apply (H "/home/dev"); [|done]. apply Hnone. intros s Hs.
    vm_compute in Hs. discriminate.
  - destruct (kubeconfig_path_rules Doubles.homeless_host ∅) as (_ & _ & _ & H & _).
    apply H; [by left | done].
Defined.

Lemma handleInitialize_sets_client_witness :
  let w := Doubles.extension None ["vm-test-abc123"] in
  let config : gmap string any :=
    {["kubeconfig" := AString "/nonexistent/kubeconfig"]} in
  handleInitialize Doubles.home_adapter Doubles.home_host config w
    = (Some (errors_New "kubeconfig not found: /nonexistent/kubeconfig"), w) ∧
  (handleInitialize Doubles.home_adapter Doubles.home_host ∅ w).1 = None.
Proof.
  intros w config. split.
  - pose proof (handleInitialize_sets_client Doubles.home_adapter
                  Doubles.home_host config w) as H.
    destruct (handleInitialize Doubles.home_adapter Doubles.home_host config w)
      as [err w'].
    destruct H as (_ & Hmissing & Hsame & _).
    rewrite (Hmissing "/nonexistent/kubeconfig" eq_refl eq_refl) in Hsame |- *.
    by rewrite Hsame.
  - pose proof (handleInitialize_sets_client Doubles.home_adapter
                  Doubles.home_host ∅ w) as H.
    destruct (handleInitialize Doubles.home_adapter Doubles.home_host ∅ w)
      as [err w'] eqn:E.
    destruct H as (Hiff & _). apply Hiff.
    exists "/home/dev/.kube/config", tt, tt, tt.
    repeat split. by injection E as _ <-.
Defined.

(** ** registerOperations *)

(** X15: [registerOperations] registers nine operations under pairwise
    different names, each with a handler of its own and an object schema in
    which every required parameter is declared; [createNamespace] requires
    [prefix], the parameter its handler insists on, and none of the Helm
    handlers is registered. *)
Theorem registerOperations_well_formed :
  length registerOperations = 9 ∧
  NoDup (op_name <$> registerOperations) ∧
  NoDup (op_handler <$> registerOperations) ∧
  Forall (λ op, schema_declares_required (op_params op) = true)
         registerOperations ∧
  (∀ op, op ∈ registerOperations → op_handler op = HandleCreateNamespace →
         op_name op = "createNamespace" ∧
         schema_Required (op_params op) = ["prefix"]) ∧
  (∀ op, op ∈ registerOperations →
         op_name op ∉ ["helmInstall"; "helmList"; "helmUninstall"]).
Proof.
  split; [reflexivity|].
  split; [apply (bool_decide_unpack (NoDup (op_name <$> registerOperations)));
          vm_compute; exact I|].
  split; [apply (bool_decide_unpack (NoDup (op_handler <$> registerOperations)));
          vm_compute; exact I|].
  split; [repeat constructor|].
  assert (Hall : Forall (λ op,
            (op_handler op = HandleCreateNamespace →
             op_name op = "createNamespace" ∧
             schema_Required (op_params op) = ["prefix"]) ∧
            op_name op ∉ ["helmInstall"; "helmList"; "helmUninstall"])
          registerOperations).
  { repeat constructor; simpl; try discriminate;
      intros Hin%list_elem_of_In; simpl in Hin;
      repeat (destruct Hin as [Hin|Hin]; [discriminate Hin|]); done. }
  rewrite Forall_forall in Hall.
  split; intros op Hin; by destruct (Hall op Hin).
Qed.

(** ** A bulk delete after a bulk delete *)

(** X16: a bulk delete forgets every name it took, also those whose
    deletion failed: whatever the first call reported, a second one right
    after it makes no client call, changes nothing and answers "No
    generated namespaces to delete". *)
Theorem deleteGeneratedNamespaces_twice {C} (w : World C) cl req req' :
  client w = Some cl →
  let '(r1, w1) := handleDeleteGeneratedNamespaces req w in
  handleDeleteGeneratedNamespaces req' w1
    = (sdk_Success "No generated namespaces to delete", w1).
Proof.
  intros Hcl.
  destruct (handleDelete_spec w cl req Hcl) as (answers & _ & H).
  cbv zeta in H.
  destruct (handleDeleteGeneratedNamespaces req w) as [r1 w1].
  destruct H as (_ & Hnil & Hcl1 & _).
  apply (handleDelete_nothing_tracked w1 cl); [by rewrite Hcl1 | done].
Qed.

Lemma deleteGeneratedNamespaces_twice_witness :
  let w := Doubles.extension (Some Doubles.refusing_client) ["vm-test-err"] in
  let '(r1, w1) := handleDeleteGeneratedNamespaces Doubles.empty_request w in
  Success r1 = false ∧
  handleDeleteGeneratedNamespaces Doubles.empty_request w1
    = (sdk_Success "No generated namespaces to delete", w1).
Proof.
  intros w.
  pose proof (deleteGeneratedNamespaces_twice w Doubles.refusing_client
                Doubles.empty_request Doubles.empty_request eq_refl) as H.
  destruct (handleDeleteGeneratedNamespaces Doubles.empty_request w)
    as [r1 w1] eqn:E.
  split; [|exact H]. by injection E as <- _.
Defined.
